(** * caddy-lua: the [<?lua ... ?>] template preprocessor of [lua.go]

    A shallow embedding of [Interpret], [isStart], [isEnd] and of the
    [print] binding registered on the Lua state, followed by the
    properties of the scanning-and-substitution pass.

    Conventions.
    - A Go [[]byte] and a Go [string] are both [list byte].
    - A Go [error] is represented by its message ([err.Error()]).
    - Indices are [nat]: every index the code computes lies between [0]
      and [len(src) + 5], far from the range where a Go [int] wraps.
    - The gopher-lua interpreter and the destination [io.Writer] are not
      part of the repository; they are parameters ([Lua], [Writer]). *)

From Stdlib Require Import String Strings.Byte DecimalString.
From Stdlib Require Import List Arith ZArith Lia Bool.
Import ListNotations.

Set Implicit Arguments.

(* ================================================================= *)
(** ** Bytes, strings and errors *)

Definition bytes := list byte.

(** The bytes of a string literal. *)
Definition B (s : string) : bytes := list_byte_of_string s.

(** [s[k]], for an index that is in range (every use below is). *)
Definition index (s : bytes) (k : nat) : byte := nth k s x00.

Definition error := bytes.

(** [%d] of a non-negative int. *)
Definition itoa (n : nat) : bytes := B (NilZero.string_of_uint (Nat.to_uint n)).

(** [fmt.Errorf("Lua Error (Line %d): %s", line, err)] *)
Definition Errorf (line : nat) (err : error) : error :=
  B "Lua Error (Line " ++ itoa line ++ B "): " ++ err.

(* ================================================================= *)
(** ** The marker scanner: [isStart], [isEnd] *)

Definition startSeq : bytes := ["<"; "?"; "l"; "u"; "a"]%byte.

(** The two bytes that [isEnd] compares against. *)
Definition endSeq : bytes := ["?"; ">"]%byte.

(** [for i := 0; i < 5; i++ { if startSeq[i] != slice[start+i] { return false } }] *)
Fixpoint isStart_for (idx : list nat) (start : nat) (slice : bytes) : bool :=
  match idx with
  | [] => true
  | i :: idx' =>
      if negb (Byte.eqb (index startSeq i) (index slice (start + i)))
      then false
      else isStart_for idx' start slice
  end.

Definition isStart (start : nat) (slice : bytes) : bool :=
  if length slice <=? start + 5 then false
  else isStart_for (seq 0 5) start slice.

Definition isEnd (start : nat) (slice : bytes) : bool :=
  if length slice <=? start + 1 then false
  else if Byte.eqb (index slice start) "?" && Byte.eqb (index slice (start + 1)) ">"
       then true
       else false.

(* ================================================================= *)
(** ** The collaborators: Lua interpreter and destination sink *)

(** The gopher-lua state, as far as [Interpret] uses it.  [DoString]
    runs one chunk in a state on which the host function [print] has
    been registered; the chunk may call that host function any number
    of times.  The host function returns no value, so what the chunk
    does cannot depend on it: a run is described by the argument
    stacks of the calls it made, in order, the state it left and the
    error it returned, if any. *)
Record Lua : Type := mkLua {
  LState : Type;
  LValue : Type;
  LNil : LValue;
  LString : LValue -> bytes;        (* the [String()] method of a value *)
  NewState : LState;
  DoString : LState -> bytes -> list (list LValue) * LState * option error
}.

(** An [io.Writer]: a write changes the sink and may return an error.
    (The byte count that [Write] also returns is dropped by every
    caller in [Interpret].) *)
Record Writer : Type := mkWriter {
  sink : Type;
  Write : sink -> bytes -> sink * option error
}.

(** [bytes.Buffer] as a destination, the sink [ServeHTTP] passes:
    every write appends and succeeds. *)
Definition BytesBuffer : Writer :=
  {| sink := bytes; Write := fun buf p => (buf ++ p, None) |}.

(* ================================================================= *)
(** ** The [print] binding *)

Section PrintBinding.
Variable I : Lua.

(** [L.Get(i)]: the [i]-th argument, 1-based; [LNil] out of range. *)
Definition Get (stack : list (LValue I)) (i : nat) : LValue I :=
  match i with
  | 0 => LNil I
  | S k => nth k stack (LNil I)
  end.

(** [for i := 1; i <= top; i++ { ... }]; [n] bounds the number of
    iterations that remain. *)
Fixpoint print_for (n i top : nat) (stack : list (LValue I)) (luaOut : bytes) : bytes :=
  match n with
  | 0 => luaOut
  | S n' =>
      if i <=? top then
        let luaOut := luaOut ++ LString I (Get stack i) in
        let luaOut := if negb (i =? top) then luaOut ++ B " " else luaOut in
        print_for n' (S i) top stack luaOut
      else luaOut
  end.

(** The function registered as the global [print]: the new contents
    of [luaOut] and the number of values returned to the script. *)
Definition print (stack : list (LValue I)) (luaOut : bytes) : bytes * nat :=
  let top := length stack in
  let luaOut := print_for top 1 top stack luaOut in
  let luaOut := luaOut ++ [x0a] in
  (luaOut, 0).

(** The effect on [luaOut] of the [print] calls of one run. *)
Definition run_prints (prints : list (list (LValue I))) (luaOut : bytes) : bytes :=
  fold_left (fun buf stack => fst (print stack buf)) prints luaOut.
End PrintBinding.

(* ================================================================= *)
(** ** The driver: [Interpret] *)

Section Interpret.
Variable I : Lua.
Variable W : Writer.

(** The locals of [Interpret], the sink, and two histories: [calls],
    the chunks handed to [L.DoString] so far (kept for the
    statements; the code never reads it), and [stdout], what the
    driver itself printed with [fmt.Printf]. *)
Record state : Type := mkState {
  inCode : bool;
  line : nat;
  luaIn : bytes;
  luaOut : bytes;
  L : LState I;
  out : sink W;
  calls : list bytes;
  stdout : bytes
}.

(** What is left when [Interpret] returns. *)
Record result : Type := mkResult {
  res_err : option error;
  res_out : sink W;
  res_calls : list bytes;
  res_stdout : bytes
}.

(** [L.DoString(luaIn.String())] with the [print] closure writing
    to [luaOut]. *)
Definition doString (s : state) : bytes * LState I * option error :=
  let '(prints, L', e) := DoString I (L s) (luaIn s) in
  (run_prints I prints (luaOut s), L', e).

Inductive flow : Type :=
| Next (i : nat) (s : state)     (* reach the post statement [i++] *)
| Return (r : result).           (* [return ...] inside the loop *)

(** One iteration of the [for] loop, at index [i < len(src)]. *)
Definition body (src : bytes) (i : nat) (s : state) : flow :=
  let line := if Byte.eqb (index src i) x0a then S (line s) else line s in
  if inCode s then
    if isEnd i src then
      let i := S i in
      let '(luaOut', L', e) := doString s in
      let calls := calls s ++ [luaIn s] in
      match e with
      | Some err =>
          Return (mkResult (Some (Errorf line err)) (out s) calls (stdout s))
      | None =>
          let (out', _) := Write W (out s) luaOut' in
          Next i (mkState false line [] [] L' out' calls (stdout s))
      end
    else
      Next i (mkState true line (luaIn s ++ [index src i]) (luaOut s)
                      (L s) (out s) (calls s) (stdout s))
  else
    if isStart i src then
      Next (i + 4) (mkState true line (luaIn s) (luaOut s)
                            (L s) (out s) (calls s) (stdout s))
    else
      match Write W (out s) [index src i] with
      | (out', Some err) => Return (mkResult (Some err) out' (calls s) (stdout s))
      | (out', None) =>
          Next i (mkState false line (luaIn s) (luaOut s)
                          (L s) out' (calls s) (stdout s))
      end.

Inductive loop_end : Type :=
| Exit (s : state)               (* the condition [i < len(src)] failed *)
| Abort (r : result).            (* a [return] in the body *)

(** [for i := 0; i < len(src); i++ { body }], bounded by [fuel]
    iterations; [None] when the bound is reached first. *)
Fixpoint loop (fuel : nat) (src : bytes) (i : nat) (s : state) : option loop_end :=
  if length src <=? i then Some (Exit s)
  else
    match fuel with
    | 0 => None
    | S fuel' =>
        match body src i s with
        | Next i' s' => loop fuel' src (S i') s'
        | Return r => Some (Abort r)
        end
    end.

(** The statements after the loop: a file that ends inside a
    [<?lua] block. *)
Definition finish (s : state) : result :=
  if inCode s && (0 <? length (luaIn s)) then
    let stdout := stdout s ++ B "sending to Lua interpreter: " ++ luaIn s in
    let '(luaOut', L', e) := doString s in
    let calls := calls s ++ [luaIn s] in
    match e with
    | Some err => mkResult (Some (Errorf (line s) err)) (out s) calls stdout
    | None =>
        let (out', _) := Write W (out s) luaOut' in
        mkResult None out' calls stdout
    end
  else mkResult None (out s) (calls s) (stdout s).

Definition init (out0 : sink W) : state :=
  mkState false 1 [] [] (NewState I) out0 [] [].

(** [Interpret(out, src)].  Every iteration advances [i], so
    [len(src)] iterations are enough ([Interpret_total]). *)
Definition Interpret (out0 : sink W) (src : bytes) : option result :=
  match loop (length src) src 0 (init out0) with
  | Some (Exit s) => Some (finish s)
  | Some (Abort r) => Some r
  | None => None
  end.
End Interpret.

Arguments mkState {I W}.
Arguments mkResult {W}.
Arguments Return {I W}.
Arguments Abort {I W}.

(* ================================================================= *)
(** ** A small interpreter to instantiate [Lua]

    A fragment of Lua that is enough to run the scenarios: a chunk is
    a sequence of calls [f(e, ..., e)] and assignments [x = e] to
    globals, optionally separated by [;], where [e] is a number, a
    double-quoted string without escapes, [nil], [true], [false] or a
    global.  [print] is the registered host function and [error]
    raises its argument.  As in Lua, a chunk that does not parse runs
    nothing. *)

Module MiniLua.

Inductive value : Type :=
| VNil
| VBool (b : bool)
| VNumber (n : nat)
| VString (s : bytes).

Definition to_string (v : value) : bytes :=
  match v with
  | VNil => B "nil"
  | VBool true => B "true"
  | VBool false => B "false"
  | VNumber n => itoa n
  | VString s => s
  end.

Inductive token : Type :=
| TName (s : bytes)
| TNumber (n : nat)
| TString (s : bytes)
| TLParen | TRParen | TComma | TSemi | TEq
| TBad.

Definition dq : byte := x22.

Definition between (lo hi : nat) (c : byte) : bool :=
  (lo <=? Byte.to_nat c) && (Byte.to_nat c <=? hi).

Definition is_alpha (c : byte) : bool :=
  between 97 122 c || between 65 90 c || Byte.eqb c "_".

Definition is_digit (c : byte) : bool := between 48 57 c.

Definition is_space (c : byte) : bool :=
  Byte.eqb c " " || Byte.eqb c x0a || Byte.eqb c x09 || Byte.eqb c x0d.

Inductive lexmode : Type :=
| LxIdle
| LxName (acc : bytes)
| LxNum (acc : nat)
| LxStr (acc : bytes).

(** What a byte does when no token is pending. *)
Definition idle (c : byte) : lexmode * list token :=
  if is_space c then (LxIdle, [])
  else if is_alpha c then (LxName [c], [])
  else if is_digit c then (LxNum (Byte.to_nat c - 48), [])
  else if Byte.eqb c dq then (LxStr [], [])
  else if Byte.eqb c "(" then (LxIdle, [TLParen])
  else if Byte.eqb c ")" then (LxIdle, [TRParen])
  else if Byte.eqb c "," then (LxIdle, [TComma])
  else if Byte.eqb c ";" then (LxIdle, [TSemi])
  else if Byte.eqb c "=" then (LxIdle, [TEq])
  else (LxIdle, [TBad]).

Fixpoint lex (m : lexmode) (s : bytes) : list token :=
  match s with
  | [] =>
      match m with
      | LxIdle => []
      | LxName a => [TName a]
      | LxNum n => [TNumber n]
      | LxStr _ => [TBad]
      end
  | c :: t =>
      match m with
      | LxStr a =>
          if Byte.eqb c dq then TString a :: lex LxIdle t
          else lex (LxStr (a ++ [c])) t
      | LxName a =>
          if is_alpha c || is_digit c then lex (LxName (a ++ [c])) t
          else TName a :: (let (m', ts) := idle c in ts ++ lex m' t)
      | LxNum n =>
          if is_digit c then lex (LxNum (10 * n + (Byte.to_nat c - 48))) t
          else TNumber n :: (let (m', ts) := idle c in ts ++ lex m' t)
      | LxIdle => let (m', ts) := idle c in ts ++ lex m' t
      end
  end.

Inductive expr : Type :=
| EConst (v : value)
| EGlobal (x : bytes).

Inductive stmt : Type :=
| Call (f : bytes) (args : list expr)
| Assign (x : bytes) (e : expr).

Definition bytes_eqb (a b : bytes) : bool :=
  if list_eq_dec Byte.byte_eq_dec a b then true else false.

Definition expr_of_token (t : token) : option expr :=
  match t with
  | TNumber n => Some (EConst (VNumber n))
  | TString s => Some (EConst (VString s))
  | TName x =>
      if bytes_eqb x (B "nil") then Some (EConst VNil)
      else if bytes_eqb x (B "true") then Some (EConst (VBool true))
      else if bytes_eqb x (B "false") then Some (EConst (VBool false))
      else Some (EGlobal x)
  | _ => None
  end.

Inductive pstate : Type :=
| PTop
| PName (x : bytes)
| PArgs (f : bytes) (want_expr : bool) (acc : list expr)
| PAssign (x : bytes).

Fixpoint parse (p : pstate) (ts : list token) : option (list stmt) :=
  match ts with
  | [] => match p with PTop => Some [] | _ => None end
  | t :: r =>
      match p with
      | PTop =>
          match t with
          | TName x => parse (PName x) r
          | TSemi => parse PTop r
          | _ => None
          end
      | PName x =>
          match t with
          | TLParen => parse (PArgs x true []) r
          | TEq => parse (PAssign x) r
          | _ => None
          end
      | PArgs f true acc =>
          match t, acc with
          | TRParen, [] => option_map (cons (Call f [])) (parse PTop r)
          | _, _ =>
              match expr_of_token t with
              | Some e => parse (PArgs f false (acc ++ [e])) r
              | None => None
              end
          end
      | PArgs f false acc =>
          match t with
          | TComma => parse (PArgs f true acc) r
          | TRParen => option_map (cons (Call f acc)) (parse PTop r)
          | _ => None
          end
      | PAssign x =>
          match expr_of_token t with
          | Some e => option_map (cons (Assign x e)) (parse PTop r)
          | None => None
          end
      end
  end.

(** Globals, most recent binding first. *)
Definition globals := list (bytes * value).

Fixpoint lookup (g : globals) (x : bytes) : value :=
  match g with
  | [] => VNil
  | (y, v) :: g' => if bytes_eqb x y then v else lookup g' x
  end.

Definition eval (g : globals) (e : expr) : value :=
  match e with
  | EConst v => v
  | EGlobal x => lookup g x
  end.

Fixpoint exec (g : globals) (prints : list (list value)) (p : list stmt)
  : list (list value) * globals * option error :=
  match p with
  | [] => (prints, g, None)
  | Assign x e :: p' => exec ((x, eval g e) :: g) prints p'
  | Call f args :: p' =>
      let vs := map (eval g) args in
      if bytes_eqb f (B "print") then exec g (prints ++ [vs]) p'
      else if bytes_eqb f (B "error") then
        (prints, g, Some (B "<string>: " ++ to_string (hd VNil vs)))
      else (prints, g, Some (B "<string>: attempt to call a non-function object"))
  end.

Definition do_string (g : globals) (chunk : bytes)
  : list (list value) * globals * option error :=
  match parse PTop (lex LxIdle chunk) with
  | Some p => exec g [] p
  | None => ([], g, Some (B "<string>: syntax error"))
  end.

Definition interp : Lua :=
  {| LState := globals; LValue := value; LNil := VNil;
     LString := to_string; NewState := []; DoString := do_string |}.

End MiniLua.

(** A sink that refuses every write, such as a closed connection. *)
Definition ClosedPipe : Writer :=
  {| sink := unit; Write := fun s _ => (s, Some (B "io: read/write on closed pipe")) |}.

(** A sink that accepts [n] more writes and refuses the rest; it keeps
    what it accepted. *)
Definition Limited : Writer :=
  {| sink := nat * bytes;
     Write := fun s p =>
       match fst s with
       | 0 => (s, Some (B "short write"))
       | S n => ((n, snd s ++ p), None)
       end |}.

(* ================================================================= *)
(** ** The document and its regions, as the specification describes them

    The specification speaks of literal text and of script regions
    between an open marker and a close marker.  The definitions of
    this section follow its words (sections 3, 4.3 and 6) and are not
    taken from the code; the theorems compare [Interpret] with them. *)

Definition newline : byte := x0a.

(** Number of line terminators in a byte sequence. *)
Definition count_nl (s : bytes) : nat :=
  length (filter (fun b => Byte.eqb b newline) s).

(** The 1-based line on which the byte at offset [k] of [doc] stands. *)
Definition line_of (doc : bytes) (k : nat) : nat := 1 + count_nl (firstn k doc).

(** [doc] begins with the bytes [m]. *)
Fixpoint starts_with (m doc : bytes) : bool :=
  match m, doc with
  | [], _ => true
  | _ :: _, [] => false
  | a :: m', b :: doc' => Byte.eqb a b && starts_with m' doc'
  end.

(** [m] occurs somewhere in [doc]. *)
Fixpoint occurs (m doc : bytes) : bool :=
  starts_with m doc ||
  match doc with
  | [] => false
  | _ :: doc' => occurs m doc'
  end.

(** Open marker: the five bytes of [<?lua] followed by any byte. *)
Definition opens (doc : bytes) : bool :=
  starts_with startSeq doc && (length startSeq <? length doc).

(** Close marker: the two bytes [?>]. *)
Definition closes (doc : bytes) : bool := starts_with endSeq doc.

(** The text before the first open marker and the bytes after it. *)
Fixpoint find_open (doc : bytes) : option (bytes * bytes) :=
  match doc with
  | [] => None
  | b :: doc' =>
      if opens doc then Some ([], skipn (length startSeq) doc)
      else option_map (fun lr => (b :: fst lr, snd lr)) (find_open doc')
  end.

(** The script before the first close marker and the bytes after it. *)
Fixpoint find_close (doc : bytes) : option (bytes * bytes) :=
  match doc with
  | [] => None
  | b :: doc' =>
      if closes doc then Some ([], skipn (length endSeq) doc)
      else option_map (fun cr => (b :: fst cr, snd cr)) (find_close doc')
  end.

Inductive segment : Type :=
| Literal (text : bytes)
| Script (code : bytes) (closed : bool).   (* [closed = false]: cut by the end of the document *)

(** The document as literal text and script regions, left to right.
    [n] bounds the number of regions. *)
Fixpoint segments_upto (n : nat) (doc : bytes) : list segment :=
  match n with
  | 0 => []
  | S n' =>
      match find_open doc with
      | None => [Literal doc]
      | Some (l, r) =>
          Literal l ::
          match find_close r with
          | Some (c, r') => Script c true :: segments_upto n' r'
          | None => match r with [] => [] | _ :: _ => [Script r false] end
          end
      end
  end.

Definition segments (doc : bytes) : list segment := segments_upto (S (length doc)) doc.

(** The script regions of a segmented document, in document order. *)
Fixpoint scripts (segs : list segment) : list bytes :=
  match segs with
  | [] => []
  | Literal _ :: rest => scripts rest
  | Script c _ :: rest => c :: scripts rest
  end.

(** The bytes of the document that a segment stands for. *)
Definition flat1 (g : segment) : bytes :=
  match g with
  | Literal l => l
  | Script c true => startSeq ++ c ++ endSeq
  | Script c false => startSeq ++ c
  end.

Definition flat (segs : list segment) : bytes := flat_map flat1 segs.

(** [parts] separated by [sep]. *)
Fixpoint join (sep : bytes) (parts : list bytes) : bytes :=
  match parts with
  | [] => []
  | [p] => p
  | p :: rest => p ++ sep ++ join sep rest
  end.

(** The text of one call of [print]: the texts of the values with
    one space between them, and a newline. *)
Definition printed (I : Lua) (stack : list (LValue I)) : bytes :=
  join (B " ") (map (LString I) stack) ++ [newline].

Section Semantics.
Variable I : Lua.
Variable W : Writer.

(** Literal text is copied one byte per write, up to the first
    write that fails. *)
Fixpoint write_bytes (o : sink W) (l : bytes) : sink W * option error :=
  match l with
  | [] => (o, None)
  | b :: l' =>
      match Write W o [b] with
      | (o', Some e) => (o', Some e)
      | (o', None) => write_bytes o' l'
      end
  end.

(** The pass over a segmented document: literal text goes to the
    sink, a region is dispatched and what it printed goes to the
    sink; the first failure ends the pass. *)
Fixpoint render (segs : list segment) (ln : nat) (st : LState I) (o : sink W)
         (cs : list bytes) (so : bytes) : result W :=
  match segs with
  | [] => mkResult None o cs so
  | Literal l :: rest =>
      match write_bytes o l with
      | (o', Some e) => mkResult (Some e) o' cs so
      | (o', None) => render rest (ln + count_nl l) st o' cs so
      end
  | Script c closed :: rest =>
      let ln := ln + count_nl c in
      let so := if closed then so else so ++ B "sending to Lua interpreter: " ++ c in
      let '(prints, st', e) := DoString I st c in
      match e with
      | Some err => mkResult (Some (Errorf ln err)) o (cs ++ [c]) so
      | None =>
          let (o', _) := Write W o (run_prints I prints []) in
          render rest ln st' o' (cs ++ [c]) so
      end
  end.
End Semantics.

(** The text that a segmented document becomes when every region runs
    without error: the interpreter state at the end and the literal
    text with each region replaced by what it printed. *)
Fixpoint runs (I : Lua) (segs : list segment) (st : LState I) : option (LState I * bytes) :=
  match segs with
  | [] => Some (st, [])
  | Literal l :: rest =>
      option_map (fun so => (fst so, l ++ snd so)) (runs I rest st)
  | Script c _ :: rest =>
      match DoString I st c with
      | (prints, st', None) =>
          option_map (fun so => (fst so, run_prints I prints [] ++ snd so)) (runs I rest st')
      | (_, _, Some _) => None
      end
  end.

(* ================================================================= *)
(** ** Scenarios *)

(** [s] between double quotes. *)
Definition quoted (s : string) : bytes := [x22] ++ B s ++ [x22].

Definition doc_hello : bytes := B "Hello <?lua print(" ++ quoted "World" ++ B ") ?>!".
Definition chunk_hello : bytes := B " print(" ++ quoted "World" ++ B ") ".

Definition doc_boom : bytes := B "<?lua error(" ++ quoted "boom" ++ B ") ?>".
Definition chunk_boom : bytes := B " error(" ++ quoted "boom" ++ B ") ".

Definition doc_two : bytes := B "<?lua print(1) ?>-<?lua print(2) ?>".
Definition chunk_one : bytes := B " print(1) ".

(** A region whose only statement stands on line 1 and whose close
    marker stands on line 3. *)
Definition doc_late : bytes :=
  B "<?lua error(" ++ quoted "boom" ++ B ")" ++ [newline; newline] ++ B "?>".
Definition chunk_late : bytes :=
  B " error(" ++ quoted "boom" ++ B ")" ++ [newline; newline].

(** The line reported with an error is a line on which a byte of the
    script stands, the script being the bytes of [src] from offset
    [first] up to offset [last]. *)
Definition reports_line_of_script (I : Lua) (src : bytes) (first last : nat) : Prop :=
  forall r ln e,
    Interpret I BytesBuffer [] src = Some r ->
    res_err r = Some (Errorf ln e) ->
    exists k, first <= k < last /\ line_of src k = ln.

Unset Implicit Arguments.

(* ================================================================= *)
(** ** The loop, seen from the bytes that remain *)

Section Pass.
Variable I : Lua.
Variable W : Writer.

(** The loop of [Interpret] seen from the bytes that remain:
    [skip] of them belong to a marker that was just recognised. *)
Fixpoint scan (skip : nat) (rest : bytes) (s : state I W) : loop_end I W :=
  match rest with
  | [] => Exit s
  | _ :: t =>
      match skip with
      | S k => scan k t s
      | 0 =>
          match body rest 0 s with
          | Next j s' => scan j t s'
          | Return r => Abort r
          end
      end
  end.

(** The outcome of an iteration at index 0, moved to index [i]. *)
Definition shift (i : nat) (f : flow I W) : flow I W :=
  match f with
  | Next j s => Next (i + j) s
  | Return r => Return r
  end.

(** What [Interpret] returns after the loop ended with [e]. *)
Definition finish_of (e : loop_end I W) : result W :=
  match e with
  | Exit s => finish s
  | Abort r => r
  end.

(** The state of the driver in front of literal text, and inside a
    region of which [code] has been read. *)
Definition in_text (ln : nat) (st : LState I) (o : sink W)
           (cs : list bytes) (so : bytes) : state I W :=
  mkState false ln [] [] st o cs so.

Definition in_code (ln : nat) (code : bytes) (st : LState I) (o : sink W)
           (cs : list bytes) (so : bytes) : state I W :=
  mkState true ln code [] st o cs so.
End Pass.

Arguments scan {I W}.
Arguments shift {I W}.
Arguments finish_of {I W}.

(* ================================================================= *)
(** ** The states at the head of the loop *)

(** [at_head out0 src i s]: running [Interpret out0 src] reaches the
    test [i < len(src)] of the loop with the locals [s]. *)
Inductive at_head (I : Lua) (W : Writer) (out0 : sink W) (src : bytes)
  : nat -> state I W -> Prop :=
| head_first : at_head I W out0 src 0 (init I W out0)
| head_next (i : nat) (s : state I W) (j : nat) (s' : state I W) :
    at_head I W out0 src i s -> i < length src -> body src i s = Next j s' ->
    at_head I W out0 src (S j) s'.

(** The index and the locals after [n] more iterations, when the
    loop makes that many without returning. *)
Fixpoint head_after (I : Lua) (W : Writer) (n : nat) (src : bytes) (i : nat)
         (s : state I W) : option (nat * state I W) :=
  match n with
  | 0 => Some (i, s)
  | S n' =>
      if i <? length src then
        match body src i s with
        | Next j s' => head_after I W n' src (S j) s'
        | Return _ => None
        end
      else None
  end.

(* ================================================================= *)
(** ** The marker scanner with checked indexing *)

(** Offsets are Go [int]s here: 64-bit integers in two's complement,
    whose sums wrap around. *)
Definition MaxInt64 : Z := 9223372036854775807.

Definition add64 (a b : Z) : Z := ((a + b + 2 ^ 63) mod 2 ^ 64 - 2 ^ 63)%Z.

(** [len(s)] *)
Definition len (s : bytes) : Z := Z.of_nat (length s).

(** [s[k]] as Go evaluates it: [None] stands for the run-time panic
    of an index out of range. *)
Definition index_checked (s : bytes) (k : Z) : option byte :=
  if (k <? 0)%Z || (len s <=? k)%Z then None else nth_error s (Z.to_nat k).

Fixpoint isStart_for_checked (idx : list Z) (start : Z) (slice : bytes) : option bool :=
  match idx with
  | [] => Some true
  | i :: idx' =>
      match index_checked startSeq i, index_checked slice (add64 start i) with
      | Some a, Some b =>
          if negb (Byte.eqb a b) then Some false
          else isStart_for_checked idx' start slice
      | _, _ => None
      end
  end.

Definition isStart_checked (start : Z) (slice : bytes) : option bool :=
  if (len slice <=? add64 start 5)%Z then Some false
  else isStart_for_checked [0; 1; 2; 3; 4]%Z start slice.

(** [&&] reads [slice[start+1]] only when the first test holds. *)
Definition isEnd_checked (start : Z) (slice : bytes) : option bool :=
  if (len slice <=? add64 start 1)%Z then Some false
  else
    match index_checked slice start with
    | None => None
    | Some a =>
        if Byte.eqb a "?" then
          match index_checked slice (add64 start 1) with
          | None => None
          | Some b => if Byte.eqb b ">" then Some true else Some false
          end
        else Some false
    end.

(* ================================================================= *)
(** ** The configuration: [Rule], [parse] *)

Module Config.

Record Rule : Type := mkRule {
  BasePath : bytes                 (* base request path to match *)
}.

(** [setup.Controller], as far as [parse] and [Setup] use it: the
    site root and a cursor over the tokens of the configuration.
    [Next] moves to the next token, [NextArg] to the next token of
    the same line; both say whether they moved.  The type is caddy's
    and not part of the repository. *)
Record Controller : Type := mkController {
  ctl : Type;
  Root : ctl -> bytes;
  Next : ctl -> bool * ctl;
  NextArg : ctl -> bool * ctl;
  Val : ctl -> bytes;
  ArgErr : ctl -> error
}.

(** [for c.Next() { ... }], bounded by [fuel] iterations; [None] when
    the bound is reached first. *)
Fixpoint parse_for (C : Controller) (fuel : nat) (c : ctl C) (rules : list Rule)
  : option (list Rule * option error) :=
  match fuel with
  | 0 => None
  | S fuel' =>
      let (more, c) := Next C c in
      if more then
        let r := mkRule (B "/") in
        let (arg, c) := NextArg C c in
        let r := if arg then mkRule (Val C c) else r in
        let (extra, c) := NextArg C c in
        if extra then Some (rules, Some (ArgErr C c))
        else parse_for C fuel' c (rules ++ [r])
      else Some (rules, None)
  end.

Definition parse (C : Controller) (fuel : nat) (c : ctl C)
  : option (list Rule * option error) :=
  parse_for C fuel c [].

(** A controller over tokens with their line numbers, in the manner
    of caddy's dispenser; [pos] tokens have been passed. *)
Record cursor : Type := mkCursor {
  site : bytes;
  tokens : list (bytes * nat);
  pos : nat
}.

Definition token_at (c : cursor) (k : nat) : bytes * nat :=
  nth k (tokens c) ([], 0).

Definition Dispenser : Controller :=
  {| ctl := cursor;
     Root := site;
     Next := fun c =>
       if pos c <? length (tokens c)
       then (true, mkCursor (site c) (tokens c) (S (pos c)))
       else (false, c);
     NextArg := fun c =>
       match pos c with
       | 0 => (true, mkCursor (site c) (tokens c) 1)
       | S k =>
           if (pos c <? length (tokens c)) &&
              (snd (token_at c k) =? snd (token_at c (S k)))
           then (true, mkCursor (site c) (tokens c) (S (pos c)))
           else (false, c)
       end;
     Val := fun c =>
       match pos c with
       | 0 => []
       | S k => fst (token_at c k)
       end;
     ArgErr := fun c =>
       B "Wrong argument count or unexpected line ending after '" ++
       match pos c with 0 => [] | S k => fst (token_at c k) end ++ B "'" |}.

(** The lines that a controller has in front of it, each line being
    the arguments that follow the name of the directive. *)
Fixpoint args_at (C : Controller) (c : ctl C) (args : list bytes)
         (then_ : ctl C -> Prop) : Prop :=
  match args with
  | [] => NextArg C c = (false, c) /\ then_ c
  | a :: more =>
      exists c1, NextArg C c = (true, c1) /\ Val C c1 = a /\ args_at C c1 more then_
  end.

Fixpoint dispenses (C : Controller) (c : ctl C) (lines : list (list bytes)) : Prop :=
  match lines with
  | [] => exists c1, Next C c = (false, c1)
  | args :: rest =>
      exists c1, Next C c = (true, c1) /\
                 args_at C c1 args (fun c2 => dispenses C c2 rest)
  end.

(** The rule that a line with at most one argument stands for. *)
Definition rule_of (args : list bytes) : Rule :=
  match args with
  | [] => mkRule (B "/")
  | a :: _ => mkRule a
  end.

End Config.

(* ================================================================= *)
(** ** The handler: [Setup], [Handler], [ServeHTTP] *)

Module Server.

(** What the handler uses of [net/http], [os], [io/ioutil],
    [path/filepath] and caddy's [middleware]. *)
Record Env : Type := mkEnv {
  FileSystem : Type;                                  (* http.FileSystem *)
  File : Type;                                        (* http.File *)
  Request : Type;                                     (* *http.Request *)
  URLPath : Request -> bytes;                         (* r.URL.Path *)
  Dir : bytes -> FileSystem;                          (* http.Dir *)
  Open : FileSystem -> bytes -> File + error;
  ReadAll : File -> bytes + error;                    (* ioutil.ReadAll *)
  IsNotExist : error -> bool;                         (* os.IsNotExist *)
  IsPermission : error -> bool;                       (* os.IsPermission *)
  Join : bytes -> bytes -> bytes;                     (* filepath.Join *)
  IndexFile : FileSystem -> bytes -> option bytes;    (* middleware.IndexFile(fs, fpath, browse.IndexPages) *)
  Matches : bytes -> bytes -> bool                    (* middleware.Path(p).Matches(base) *)
}.

Definition StatusOK : nat := 200.
Definition StatusForbidden : nat := 403.
Definition StatusNotFound : nat := 404.
Definition StatusInternalServerError : nat := 500.

Section Handler.
Variable I : Lua.
Variable E : Env.
Variable RW : Writer.                                 (* http.ResponseWriter *)

(** What a handler leaves: the response writer, the status and the
    error.  (What [Interpret] printed on standard output is left out.) *)
Definition served : Type := sink RW * (nat * option error).

Record Handler : Type := mkHandler {
  Next : sink RW -> Request E -> served;              (* middleware.Handler *)
  Rules : list Config.Rule;
  Root : bytes;                                       (* site root *)
  FileSys : FileSystem E
}.

(** The statements of the loop of [ServeHTTP] for a rule that
    matches. *)
Definition serve (h : Handler) (w : sink RW) (r : Request E) : option served :=
  let fpath := URLPath E r in
  let fpath :=
    match IndexFile E (FileSys h) fpath with
    | Some idx => idx
    | None => fpath
    end in
  match Open E (FileSys h) (Join E (Root h) fpath) with
  | inr err =>
      if IsNotExist E err then Some (w, (StatusNotFound, None))
      else if IsPermission E err then Some (w, (StatusForbidden, None))
      else Some (w, (StatusInternalServerError, Some err))
  | inl file =>
      match ReadAll E file with
      | inr err => Some (w, (StatusInternalServerError, Some err))
      | inl contents =>
          match Interpret I BytesBuffer [] contents with
          | None => None
          | Some res =>
              match res_err res with
              | Some err => Some (w, (StatusInternalServerError, Some err))
              | None =>
                  let (w', _) := Write RW w (res_out res) in
                  Some (w', (StatusOK, None))
              end
          end
      end
  end.

(** [for _, rule := range h.Rules { ... }] and the call of the next
    handler after it. *)
Fixpoint ServeHTTP_for (rules : list Config.Rule) (h : Handler) (w : sink RW)
         (r : Request E) : option served :=
  match rules with
  | [] => Some (Next h w r)
  | rule :: rest =>
      if negb (Matches E (URLPath E r) (Config.BasePath rule))
      then ServeHTTP_for rest h w r
      else serve h w r
  end.

Definition ServeHTTP (h : Handler) (w : sink RW) (r : Request E) : option served :=
  ServeHTTP_for (Rules h) h w r.

(** [Setup]: the middleware, or the error of [parse]. *)
Definition Setup (C : Config.Controller) (fuel : nat) (c : Config.ctl C)
  : option (((sink RW -> Request E -> served) -> Handler) + error) :=
  let root := Config.Root C c in
  match Config.parse C fuel c with
  | None => None
  | Some (_, Some err) => Some (inr err)
  | Some (rules, None) =>
      Some (inl (fun next => mkHandler next rules root (Dir E root)))
  end.

(** Some rule of the handler has a base path that matches the path
    of the request. *)
Definition routed (h : Handler) (r : Request E) : bool :=
  existsb (fun rule => Matches E (URLPath E r) (Config.BasePath rule)) (Rules h).
(** The name of the file that [ServeHTTP] opens for a request. *)
Definition opened (h : Handler) (r : Request E) : bytes :=
  Join E (Root h)
    match IndexFile E (FileSys h) (URLPath E r) with
    | Some idx => idx
    | None => URLPath E r
    end.
End Handler.

(** A file system given by the list of its files: a file cannot be
    opened, or is opened and cannot be read, or has contents.
    Requests are paths. *)
Definition ListEnv : Env :=
  {| FileSystem := list (bytes * ((bytes + error) + error));
     File := bytes + error;
     Request := bytes;
     URLPath := fun r => r;
     Dir := fun _ => [];
     Open := fun fs name =>
       match find (fun f => MiniLua.bytes_eqb (fst f) name) fs with
       | Some f => snd f
       | None => inr (B "file does not exist")
       end;
     ReadAll := fun f => f;
     IsNotExist := fun e => MiniLua.bytes_eqb e (B "file does not exist");
     IsPermission := fun e => MiniLua.bytes_eqb e (B "permission denied");
     Join := fun root path => root ++ path;
     IndexFile := fun _ _ => None;
     Matches := fun path base => starts_with base path |}.

End Server.

(** A configuration, and a site with its files, for the scenarios. *)
Definition config_two : Config.cursor :=
  Config.mkCursor (B "/srv")
    [(B "lua", 1); (B "lua", 2); (B "/app", 2)] 0.

Definition config_bad : Config.cursor :=
  Config.mkCursor (B "/srv")
    [(B "lua", 1); (B "/a", 1); (B "lua", 2); (B "/b", 2); (B "/c", 2); (B "lua", 3)] 0.

Definition site_files : Server.FileSystem Server.ListEnv :=
  [(B "/srv/app/hello.html", inl (inl doc_hello));
   (B "/srv/app/boom.html", inl (inl (B "a" ++ doc_boom)));
   (B "/srv/app/secret.html", inr (B "permission denied"));
   (B "/srv/app/broken.html", inl (inr (B "unexpected EOF")))].

Definition site_next (w : bytes) (r : bytes) : Server.served BytesBuffer :=
  (w ++ B "next", (200, None)).

Definition site_handler : Server.Handler Server.ListEnv BytesBuffer :=
  Server.mkHandler Server.ListEnv BytesBuffer site_next
    [Config.mkRule (B "/app")] (B "/srv") site_files.

(** What a pass started on an empty buffer, with no chunk dispatched
    and nothing printed, becomes when it is started on [o], [cs] and
    [so] instead. *)
Definition framed (o : bytes) (cs : list bytes) (so : bytes)
           (r : result BytesBuffer) : result BytesBuffer :=
  @mkResult BytesBuffer (res_err r) (o ++ res_out r) (cs ++ res_calls r)
            (so ++ res_stdout r).


(* ================================================================= *)
(** ** The marker scanner looks at the rest of the document only *)

Lemma byte_eqb_sym (a b : byte) : Byte.eqb a b = Byte.eqb b a.
Proof.
  destruct (Byte.eqb a b) eqn:Hab.
  - apply Byte.byte_dec_bl in Hab. subst. symmetry. now apply Byte.byte_dec_lb.
  - destruct (Byte.eqb b a) eqn:Hba; [|reflexivity].
    apply Byte.byte_dec_bl in Hba. subst.
    now rewrite (Byte.byte_dec_lb eq_refl) in Hab.
Qed.

Lemma starts_with_spec (m doc : bytes) :
  starts_with m doc = true <-> exists r, doc = m ++ r.
Proof.
  revert doc; induction m as [|a m IH]; intros doc; simpl.
  - split; eauto.
  - destruct doc as [|b doc].
    + split; [discriminate | intros [r Hr]; discriminate].
    + rewrite andb_true_iff, IH. split.
      * intros [Hab [r ->]]. apply Byte.byte_dec_bl in Hab. subst. eauto.
      * intros [r Hr]. injection Hr as -> ->. split; eauto.
        now apply Byte.byte_dec_lb.
Qed.

Lemma index_skipn (src : bytes) (i k : nat) :
  index src (i + k) = index (skipn i src) k.
Proof.
  unfold index. revert src; induction i as [|i IH]; intros src; simpl.
  - reflexivity.
  - destruct src as [|b src]; [now destruct k | apply IH].
Qed.

Lemma index_hd (src : bytes) (i : nat) : index src i = hd x00 (skipn i src).
Proof.
  rewrite <- (Nat.add_0_r i) at 1. rewrite index_skipn.
  now destruct (skipn i src).
Qed.

Lemma isStart_opens (i : nat) (src : bytes) : isStart i src = opens (skipn i src).
Proof.
  unfold isStart, opens.
  assert (Hlen : length (skipn i src) = length src - i) by apply length_skipn.
  destruct (Nat.leb_spec (length src) (i + 5)) as [Hle|Hlt].
  - replace (length startSeq <? length (skipn i src)) with false.
    + now rewrite andb_false_r.
    + symmetry. apply Nat.ltb_ge. simpl. lia.
  - replace (length startSeq <? length (skipn i src)) with true
      by (symmetry; apply Nat.ltb_lt; simpl; lia).
    rewrite andb_true_r. simpl isStart_for.
    rewrite !index_skipn.
    destruct (skipn i src) as [|b0 [|b1 [|b2 [|b3 [|b4 r]]]]];
      simpl in Hlen; try lia.
    unfold index; simpl.
    destruct (Byte.eqb "<" b0), (Byte.eqb "?" b1), (Byte.eqb "l" b2),
      (Byte.eqb "u" b3), (Byte.eqb "a" b4); reflexivity.
Qed.

Lemma isEnd_closes (i : nat) (src : bytes) : isEnd i src = closes (skipn i src).
Proof.
  unfold isEnd, closes.
  assert (Hlen : length (skipn i src) = length src - i) by apply length_skipn.
  rewrite <- (Nat.add_0_r i) at 2. rewrite !index_skipn.
  destruct (Nat.leb_spec (length src) (i + 1)) as [Hle|Hlt].
  - destruct (skipn i src) as [|b0 [|b1 r]]; simpl in *; try lia; try reflexivity.
  - destruct (skipn i src) as [|b0 [|b1 r]]; simpl in Hlen; try lia.
    unfold index; simpl.
    rewrite (byte_eqb_sym b0), (byte_eqb_sym b1), andb_true_r.
    destruct (Byte.eqb "?" b0), (Byte.eqb ">" b1); reflexivity.
Qed.

(* ================================================================= *)
(** ** The loop as a pass over the rest of the document *)

Section Scan.
Variable I : Lua.
Variable W : Writer.

Lemma body_suffix (src : bytes) (i : nat) (s : state I W) :
  body src i s = shift i (body (skipn i src) 0 s).
Proof.
  unfold body.
  rewrite !isStart_opens, !isEnd_closes. simpl skipn.
  replace (index src i) with (index (skipn i src) 0)
    by (now rewrite <- index_skipn, Nat.add_0_r).
  destruct (inCode s).
  - destruct (closes (skipn i src)).
    + destruct (doString s) as [[lo L'] [e|]]; simpl; [reflexivity|].
      destruct (Write W (out s) lo). simpl. f_equal. lia.
    + simpl. f_equal. lia.
  - destruct (opens (skipn i src)).
    + simpl. reflexivity.
    + destruct (Write W (out s) [index (skipn i src) 0]) as [o [e|]]; simpl;
        [reflexivity | f_equal; lia].
Qed.

(** A marker that was recognised lies inside the document. *)
Lemma body_jump (b : byte) (t : bytes) (s : state I W) (j : nat) (s' : state I W) :
  body (b :: t) 0 s = Next j s' -> j <= length t.
Proof.
  unfold body. rewrite isStart_opens, isEnd_closes. simpl skipn.
  assert (Hc : closes (b :: t) = true -> 1 <= length t).
  { unfold closes. intros H. apply starts_with_spec in H as [r Hr].
    injection Hr as -> ->. simpl. lia. }
  assert (Ho : opens (b :: t) = true -> 4 <= length t).
  { unfold opens. rewrite andb_true_iff, Nat.ltb_lt. simpl. lia. }
  destruct (inCode s).
  - destruct (closes (b :: t)).
    + destruct (doString s) as [[lo L'] [e|]]; [discriminate|].
      destruct (Write W (out s) lo). intros H. injection H as <- _. auto.
    + intros H. injection H as <- _. lia.
  - destruct (opens (b :: t)).
    + intros H. injection H as <- _. simpl. auto.
    + destruct (Write W (out s) [index (b :: t) 0]) as [o [e|]]; [discriminate|].
      intros H. injection H as <- _. lia.
Qed.

Lemma scan_skip (k : nat) (t : bytes) (s : state I W) :
  k <= length t -> scan k t s = scan 0 (skipn k t) s.
Proof.
  revert t; induction k as [|k IH]; intros t Hk; [reflexivity|].
  destruct t as [|b t]; simpl in Hk; [lia|].
  simpl. apply IH. lia.
Qed.

Lemma skipn_cons_inv (i : nat) (src : bytes) (b : byte) (t : bytes) :
  skipn i src = b :: t -> forall j, skipn (S (i + j)) src = skipn j t.
Proof.
  intros H j.
  replace (S (i + j)) with (j + 1 + i) by lia.
  rewrite <- !skipn_skipn, H. reflexivity.
Qed.

(** With [len(src) - i] iterations or more, the loop started at [i]
    runs to its end. *)
Lemma loop_scan (src : bytes) (fuel i : nat) (s : state I W) :
  i <= length src -> length src - i <= fuel ->
  loop fuel src i s = Some (scan 0 (skipn i src) s).
Proof.
  revert i s; induction fuel as [|fuel IH]; intros i s Hi Hf.
  - assert (i = length src) by lia. subst i.
    simpl. rewrite Nat.leb_refl, skipn_all. reflexivity.
  - simpl. destruct (Nat.leb_spec (length src) i) as [Hle|Hlt].
    + replace i with (length src) by lia. now rewrite skipn_all.
    + rewrite body_suffix.
      destruct (skipn i src) as [|b t] eqn:E.
      { apply (f_equal (@length byte)) in E. rewrite length_skipn in E.
        simpl in E. lia. }
      simpl scan.
      destruct (body (b :: t) 0 s) as [j s'|r] eqn:Eb; simpl; [|reflexivity].
      pose proof (body_jump _ _ _ _ _ Eb) as Hj.
      assert (Ht : length t = length src - S i).
      { apply (f_equal (@length byte)) in E. rewrite length_skipn in E.
        simpl in E. lia. }
      rewrite IH by lia.
      rewrite (skipn_cons_inv _ _ _ _ E), (scan_skip j t s' Hj). reflexivity.
Qed.

(** [Interpret] always returns. *)
Lemma Interpret_scan (out0 : sink W) (src : bytes) :
  Interpret I W out0 src = Some (finish_of (scan 0 src (init I W out0))).
Proof.
  unfold Interpret. rewrite loop_scan by lia. simpl skipn.
  now destruct (scan 0 src (init I W out0)).
Qed.
End Scan.

(* ================================================================= *)
(** ** Markers found by [find_open] and [find_close] *)

Lemma opens_spec (doc : bytes) :
  opens doc = true ->
  doc = startSeq ++ skipn (length startSeq) doc /\ skipn (length startSeq) doc <> [].
Proof.
  unfold opens. rewrite andb_true_iff, Nat.ltb_lt. intros [H Hlen].
  apply starts_with_spec in H as [r ->]. simpl. split; [reflexivity|].
  destruct r; [simpl in Hlen; lia | discriminate].
Qed.

Lemma closes_spec (doc : bytes) :
  closes doc = true -> doc = endSeq ++ skipn (length endSeq) doc.
Proof.
  unfold closes. intros H. apply starts_with_spec in H as [r ->]. reflexivity.
Qed.

Lemma find_open_spec (doc l r : bytes) :
  find_open doc = Some (l, r) -> doc = l ++ startSeq ++ r /\ r <> [].
Proof.
  revert l; induction doc as [|b doc IH]; intros l; [discriminate|].
  cbn [find_open]. destruct (opens (b :: doc)) eqn:E.
  - intros H. injection H as <- <-. now apply opens_spec.
  - destruct (find_open doc) as [[l' r']|]; [|discriminate].
    simpl. intros H. injection H as <- <-.
    destruct (IH l' eq_refl) as [-> Hr]. now split.
Qed.

Lemma find_close_spec (doc c r : bytes) :
  find_close doc = Some (c, r) -> doc = c ++ endSeq ++ r.
Proof.
  revert c; induction doc as [|b doc IH]; intros c; [discriminate|].
  cbn [find_close]. destruct (closes (b :: doc)) eqn:E.
  - intros H. injection H as <- <-. now apply closes_spec.
  - destruct (find_close doc) as [[c' r']|]; [|discriminate].
    simpl. intros H. injection H as <- <-.
    now rewrite (IH c' eq_refl) at 1.
Qed.

Arguments count_nl : simpl never.
Arguments opens : simpl never.
Arguments closes : simpl never.

Lemma count_nl_cons (b : byte) (s : bytes) :
  count_nl (b :: s) = (if Byte.eqb b newline then 1 else 0) + count_nl s.
Proof. unfold count_nl. simpl. now destruct (Byte.eqb b newline). Qed.

Lemma count_nl_app (s t : bytes) : count_nl (s ++ t) = count_nl s + count_nl t.
Proof. unfold count_nl. now rewrite filter_app, length_app. Qed.

(* ================================================================= *)
(** ** The pass, one run of literal text or one region at a time *)

Section Runs.
Variable I : Lua.
Variable W : Writer.

Lemma body_cons (b : byte) (t : bytes) (s : state I W) :
  body (b :: t) 0 s =
  let ln := if Byte.eqb b newline then S (line s) else line s in
  if inCode s then
    if closes (b :: t) then
      let '(luaOut', L', e) := doString s in
      match e with
      | Some err =>
          Return (mkResult (Some (Errorf ln err)) (out s)
                           (calls s ++ [luaIn s]) (stdout s))
      | None =>
          let (out', _) := Write W (out s) luaOut' in
          Next 1 (mkState false ln [] [] L' out' (calls s ++ [luaIn s]) (stdout s))
      end
    else
      Next 0 (mkState true ln (luaIn s ++ [b]) (luaOut s)
                      (L s) (out s) (calls s) (stdout s))
  else
    if opens (b :: t) then
      Next 4 (mkState true ln (luaIn s) (luaOut s)
                      (L s) (out s) (calls s) (stdout s))
    else
      match Write W (out s) [b] with
      | (out', Some err) => Return (mkResult (Some err) out' (calls s) (stdout s))
      | (out', None) =>
          Next 0 (mkState false ln (luaIn s) (luaOut s)
                          (L s) out' (calls s) (stdout s))
      end.
Proof.
  unfold body. rewrite isStart_opens, isEnd_closes. reflexivity.
Qed.

Lemma opens_not_newline (b : byte) (t : bytes) :
  opens (b :: t) = true -> Byte.eqb b newline = false.
Proof.
  intros H. apply opens_spec in H as [H _]. injection H as -> _. reflexivity.
Qed.

Lemma closes_not_newline (b : byte) (t : bytes) :
  closes (b :: t) = true -> Byte.eqb b newline = false.
Proof.
  intros H. apply closes_spec in H. injection H as -> _. reflexivity.
Qed.

Lemma scan_text_end (rest : bytes) :
  find_open rest = None ->
  forall ln st o cs so,
  scan 0 rest (in_text I W ln st o cs so) =
  match write_bytes W o rest with
  | (o', Some e) => Abort (mkResult (Some e) o' cs so)
  | (o', None) => Exit (in_text I W (ln + count_nl rest) st o' cs so)
  end.
Proof.
  unfold in_text.
  induction rest as [|b t IH]; intros Hf ln st o cs so.
  - cbn. change (count_nl []) with 0. now rewrite Nat.add_0_r.
  - cbn [find_open] in Hf. destruct (opens (b :: t)) eqn:Eo; [discriminate|].
    destruct (find_open t); [discriminate|].
    cbn [scan]. rewrite body_cons, Eo. cbn.
    destruct (Write W o [b]) as [o' [e|]]; [reflexivity|].
    rewrite (IH eq_refl), count_nl_cons.
    destruct (write_bytes W o' t) as [o'' [e|]]; [reflexivity|].
    destruct (Byte.eqb b newline); do 2 f_equal; lia.
Qed.

Lemma scan_text_open (rest l r : bytes) :
  find_open rest = Some (l, r) ->
  forall ln st o cs so,
  scan 0 rest (in_text I W ln st o cs so) =
  match write_bytes W o l with
  | (o', Some e) => Abort (mkResult (Some e) o' cs so)
  | (o', None) => scan 0 r (in_code I W (ln + count_nl l) [] st o' cs so)
  end.
Proof.
  unfold in_text, in_code.
  revert l; induction rest as [|b t IH]; intros l Hf ln st o cs so; [discriminate|].
  cbn [find_open] in Hf. cbn [scan]. rewrite body_cons.
  destruct (opens (b :: t)) eqn:Eo.
  - injection Hf as <- <-. cbn.
    rewrite (opens_not_newline _ _ Eo).
    assert (Hlen : 4 <= length t).
    { apply opens_spec in Eo as [H _]. apply (f_equal (@length byte)) in H.
      rewrite length_app, length_skipn in H. simpl in H. simpl. lia. }
    rewrite (scan_skip I W 4 t _ Hlen).
    unfold count_nl; simpl. rewrite Nat.add_0_r. reflexivity.
  - destruct (find_open t) as [[l' r']|]; [|discriminate].
    simpl in Hf. injection Hf as <- <-. cbn.
    destruct (Write W o [b]) as [o' [e|]]; [reflexivity|].
    rewrite (IH l' eq_refl). rewrite count_nl_cons.
    destruct (write_bytes W o' l') as [o'' [e|]]; [reflexivity|].
    destruct (Byte.eqb b newline); do 2 f_equal; lia.
Qed.

Lemma scan_code_end (rest : bytes) :
  find_close rest = None ->
  forall ln code st o cs so,
  scan 0 rest (in_code I W ln code st o cs so) =
  Exit (in_code I W (ln + count_nl rest) (code ++ rest) st o cs so).
Proof.
  unfold in_code.
  induction rest as [|b t IH]; intros Hf ln code st o cs so.
  - cbn. unfold count_nl; simpl. now rewrite Nat.add_0_r, app_nil_r.
  - cbn [find_close] in Hf. destruct (closes (b :: t)) eqn:Ec; [discriminate|].
    destruct (find_close t); [discriminate|].
    cbn [scan]. rewrite body_cons, Ec. cbn.
    rewrite (IH eq_refl), count_nl_cons, <- app_assoc. simpl.
    destruct (Byte.eqb b newline); do 2 f_equal; lia.
Qed.

Lemma scan_code_close (rest c r : bytes) :
  find_close rest = Some (c, r) ->
  forall ln code st o cs so,
  scan 0 rest (in_code I W ln code st o cs so) =
  let '(prints, st', e) := DoString I st (code ++ c) in
  match e with
  | Some err =>
      Abort (mkResult (Some (Errorf (ln + count_nl c) err)) o (cs ++ [code ++ c]) so)
  | None =>
      let (o', _) := Write W o (run_prints I prints []) in
      scan 0 r (in_text I W (ln + count_nl c) st' o' (cs ++ [code ++ c]) so)
  end.
Proof.
  unfold in_text, in_code.
  revert c; induction rest as [|b t IH]; intros c Hf ln code st o cs so; [discriminate|].
  cbn [find_close] in Hf. cbn [scan]. rewrite body_cons.
  destruct (closes (b :: t)) eqn:Ec.
  - injection Hf as <- <-.
    rewrite (closes_not_newline _ _ Ec), app_nil_r.
    unfold doString; cbn.
    unfold count_nl; simpl. rewrite Nat.add_0_r.
    destruct (DoString I st code) as [[prints st'] [e|]]; [reflexivity|].
    destruct (Write W o (run_prints I prints [])) as [o' ?].
    assert (Hlen : 1 <= length t).
    { apply closes_spec in Ec. apply (f_equal (@length byte)) in Ec.
      rewrite length_app, length_skipn in Ec. simpl in Ec. simpl. lia. }
    rewrite (scan_skip I W 1 t _ Hlen). reflexivity.
  - destruct (find_close t) as [[c' r']|]; [|discriminate].
    simpl in Hf. injection Hf as <- <-. cbn.
    rewrite (IH c' eq_refl), count_nl_cons, <- app_assoc. simpl.
    replace ((if Byte.eqb b newline then S ln else ln) + count_nl c')
      with (ln + ((if Byte.eqb b newline then 1 else 0) + count_nl c'))
      by (destruct (Byte.eqb b newline); lia).
    reflexivity.
Qed.
End Runs.

(* ================================================================= *)
(** ** [Interpret] is the pass over the segmented document *)

Lemma find_open_shorter (doc l r : bytes) :
  find_open doc = Some (l, r) -> length doc = length l + 5 + length r.
Proof.
  intros H. apply find_open_spec in H as [-> _].
  rewrite !length_app. simpl. lia.
Qed.

Lemma find_close_shorter (doc c r : bytes) :
  find_close doc = Some (c, r) -> length doc = length c + 2 + length r.
Proof.
  intros H. apply find_close_spec in H as ->.
  rewrite !length_app. simpl. lia.
Qed.

(** The bound on the number of regions does not matter once it
    exceeds the length of the document. *)
Lemma segments_upto_enough (n m : nat) (doc : bytes) :
  length doc < n -> length doc < m -> segments_upto n doc = segments_upto m doc.
Proof.
  revert m doc; induction n as [|n IH]; intros m doc Hn Hm; [lia|].
  destruct m as [|m]; [lia|]. cbn [segments_upto].
  destruct (find_open doc) as [[l r]|] eqn:Eo; [|reflexivity].
  destruct (find_close r) as [[c r']|] eqn:Ec; [|reflexivity].
  apply find_open_shorter in Eo. apply find_close_shorter in Ec.
  do 2 f_equal. apply IH; lia.
Qed.

Lemma segments_unfold (doc : bytes) :
  segments doc =
  match find_open doc with
  | None => [Literal doc]
  | Some (l, r) =>
      Literal l ::
      match find_close r with
      | Some (c, r') => Script c true :: segments r'
      | None => match r with [] => [] | _ :: _ => [Script r false] end
      end
  end.
Proof.
  unfold segments at 1. cbn [segments_upto].
  destruct (find_open doc) as [[l r]|] eqn:Eo; [|reflexivity].
  destruct (find_close r) as [[c r']|] eqn:Ec; [|reflexivity].
  apply find_open_shorter in Eo. apply find_close_shorter in Ec.
  do 2 f_equal. apply segments_upto_enough; lia.
Qed.

Section Refinement.
Variable I : Lua.
Variable W : Writer.

Lemma scan_render (n : nat) :
  forall rest ln st o cs so,
  length rest < n ->
  finish_of (scan 0 rest (in_text I W ln st o cs so)) =
  render I W (segments_upto n rest) ln st o cs so.
Proof.
  induction n as [|n IH]; intros rest ln st o cs so Hn; [lia|].
  cbn [segments_upto].
  destruct (find_open rest) as [[l r]|] eqn:Eo.
  - rewrite (scan_text_open I W _ _ _ Eo). cbn [render].
    destruct (write_bytes W o l) as [o1 [e|]]; [reflexivity|].
    pose proof (find_open_spec _ _ _ Eo) as [_ Hr].
    pose proof (find_open_shorter _ _ _ Eo) as Hl.
    destruct (find_close r) as [[c r']|] eqn:Ec.
    + rewrite (scan_code_close I W _ _ _ Ec). cbn [render app].
      destruct (DoString I st c) as [[prints st'] [e|]]; [reflexivity|].
      destruct (Write W o1 (run_prints I prints [])) as [o2 ?].
      apply IH. apply find_close_shorter in Ec. lia.
    + rewrite (scan_code_end I W _ Ec). cbn [app].
      destruct r as [|b r]; [congruence|].
      cbn [render finish_of]. unfold finish, in_code, doString. cbn.
      destruct (DoString I st (b :: r)) as [[prints st'] [e|]]; [reflexivity|].
      now destruct (Write W o1 (run_prints I prints [])) as [o2 ?].
  - rewrite (scan_text_end I W _ Eo). cbn [render].
    now destruct (write_bytes W o rest) as [o1 [e|]].
Qed.

(** The state in which the loop ends, when it runs to the end of the
    document: every line terminator was counted, the script output
    buffer is empty, and a region that is still open has text pending. *)
Lemma scan_exit (n : nat) :
  forall rest ln st o cs so s,
  length rest < n ->
  scan 0 rest (in_text I W ln st o cs so) = Exit s ->
  line s = ln + count_nl rest /\ luaOut s = [] /\
  (inCode s = true -> luaIn s <> []) /\ (inCode s = false -> luaIn s = []).
Proof.
  induction n as [|n IH]; intros rest ln st o cs so s Hn; [lia|].
  destruct (find_open rest) as [[l r]|] eqn:Eo.
  - rewrite (scan_text_open I W _ _ _ Eo).
    destruct (write_bytes W o l) as [o1 [e|]]; [discriminate|].
    pose proof (find_open_spec _ _ _ Eo) as [Hrest Hr].
    pose proof (find_open_shorter _ _ _ Eo) as Hl.
    assert (Hnl : count_nl rest = count_nl l + count_nl r).
    { rewrite Hrest, !count_nl_app. change (count_nl startSeq) with 0. lia. }
    destruct (find_close r) as [[c r']|] eqn:Ec.
    + rewrite (scan_code_close I W _ _ _ Ec). cbn [app].
      destruct (DoString I st c) as [[prints st'] [e|]]; [discriminate|].
      destruct (Write W o1 (run_prints I prints [])) as [o2 ?].
      intros H. apply IH in H.
      * assert (Hr' : count_nl r = count_nl c + count_nl r').
        { rewrite (find_close_spec _ _ _ Ec), !count_nl_app.
          change (count_nl endSeq) with 0. lia. }
        destruct H as [H1 H2]. split; [lia | exact H2].
      * apply find_close_shorter in Ec. lia.
    + rewrite (scan_code_end I W _ Ec). intros H. injection H as <-.
      cbn. repeat split; try lia; try discriminate.
      intros _. exact Hr.
  - rewrite (scan_text_end I W _ Eo).
    destruct (write_bytes W o rest) as [o1 [e|]]; [discriminate|].
    intros H. injection H as <-. cbn. repeat split; discriminate.
Qed.

(** [Interpret] always returns, and what it returns is the pass
    over the segments of the document, started on line 1 with a new
    interpreter state. *)
Theorem Interpret_render (out0 : sink W) (src : bytes) :
  Interpret I W out0 src =
  Some (render I W (segments src) 1 (NewState I) out0 [] []).
Proof.
  rewrite Interpret_scan. f_equal.
  apply (scan_render (S (length src))). lia.
Qed.
End Refinement.

(** X5: when the loop runs to the end of the document inside a region,
    script text is pending: an open marker is recognised only with a
    byte after it, and that byte is in the pending script unless it
    starts a close marker.  The test [luaIn.Len() > 0] after the loop
    therefore never fails in a region. *)
Lemma exit_pending_nonempty (I : Lua) (W : Writer) (out0 : sink W) (src : bytes)
      (s : state I W) :
  loop (length src) src 0 (init I W out0) = Some (Exit s) ->
  inCode s = true -> luaIn s <> [].
Proof.
  intros H. rewrite loop_scan in H by lia.
  injection H as H. cbn [skipn] in H.
  apply (scan_exit I W (S (length src))) in H; [|lia].
  now destruct H as [_ [_ [H _]]].
Qed.


(* ================================================================= *)
(** ** Documents given by their parts *)

Lemma occurs_spec (m doc : bytes) :
  occurs m doc = true <-> exists l r, doc = l ++ m ++ r.
Proof.
  induction doc as [|b t IH].
  - cbn [occurs]. rewrite orb_false_r, starts_with_spec. split.
    + intros [r Hr]. now exists [], r.
    + intros [l [r Hr]]. destruct l; [now exists r | discriminate].
  - cbn [occurs]. rewrite orb_true_iff, starts_with_spec, IH. split.
    + intros [[r Hr]|[l [r Hr]]].
      * now exists [], r.
      * exists (b :: l), r. now rewrite Hr.
    + intros [l [r Hr]]. destruct l as [|b' l].
      * left. now exists r.
      * right. injection Hr as _ Hr. now exists l, r.
Qed.

Lemma occurs_cons (m : bytes) (b : byte) (t : bytes) :
  occurs m (b :: t) = false -> starts_with m (b :: t) = false /\ occurs m t = false.
Proof. cbn [occurs]. now rewrite orb_false_iff. Qed.

Lemma find_open_none (doc : bytes) :
  occurs startSeq doc = false -> find_open doc = None.
Proof.
  induction doc as [|b t IH]; intros H; [reflexivity|].
  apply occurs_cons in H as [Hs Ht]. cbn [find_open].
  unfold opens. rewrite Hs. cbn [andb]. now rewrite (IH Ht).
Qed.

Lemma find_close_none (doc : bytes) :
  occurs endSeq doc = false -> find_close doc = None.
Proof.
  induction doc as [|b t IH]; intros H; [reflexivity|].
  apply occurs_cons in H as [Hs Ht]. cbn [find_close].
  unfold closes. rewrite Hs. now rewrite (IH Ht).
Qed.

(** The open marker does not overlap itself: text without a marker,
    followed by a marker, has its first marker where the text ends. *)
Lemma find_open_app (l x : bytes) :
  occurs startSeq l = false -> x <> [] ->
  find_open (l ++ startSeq ++ x) = Some (l, x).
Proof.
  intros Hl Hx. induction l as [|b l IH].
  - destruct x as [|c x]; [congruence|]. reflexivity.
  - apply occurs_cons in Hl as [Hs Ht].
    change ((b :: l) ++ startSeq ++ x) with (b :: (l ++ startSeq ++ x)).
    cbn [find_open].
    replace (opens (b :: l ++ startSeq ++ x)) with false.
    + now rewrite (IH Ht).
    + symmetry. unfold opens.
      destruct (starts_with startSeq (b :: l ++ startSeq ++ x)) eqn:E; [|reflexivity].
      exfalso. apply starts_with_spec in E as [r Hr].
      destruct l as [|b1 [|b2 [|b3 [|b4 l]]]]; simpl in Hr;
        injection Hr; intros; subst; try discriminate;
        vm_compute in Hs; discriminate.
Qed.

(** A script without a close marker, followed by a close marker, ends
    at that marker, whatever else it contains. *)
Lemma find_close_app (c rest : bytes) :
  occurs endSeq c = false ->
  find_close (c ++ endSeq ++ rest) = Some (c, rest).
Proof.
  intros Hc. induction c as [|b c IH].
  - reflexivity.
  - apply occurs_cons in Hc as [Hs Ht].
    change ((b :: c) ++ endSeq ++ rest) with (b :: (c ++ endSeq ++ rest)).
    cbn [find_close].
    replace (closes (b :: c ++ endSeq ++ rest)) with false.
    + now rewrite (IH Ht).
    + symmetry. unfold closes.
      destruct (starts_with endSeq (b :: c ++ endSeq ++ rest)) eqn:E; [|reflexivity].
      exfalso. apply starts_with_spec in E as [r Hr].
      destruct c as [|b1 c]; simpl in Hr; injection Hr; intros; subst;
        try discriminate; vm_compute in Hs; discriminate.
Qed.

Lemma segments_text (doc : bytes) :
  occurs startSeq doc = false -> segments doc = [Literal doc].
Proof. intros H. now rewrite segments_unfold, (find_open_none _ H). Qed.

Lemma segments_region (l c rest : bytes) :
  occurs startSeq l = false -> occurs endSeq c = false ->
  segments (l ++ startSeq ++ c ++ endSeq ++ rest) =
  Literal l :: Script c true :: segments rest.
Proof.
  intros Hl Hc. rewrite segments_unfold, (find_open_app l _ Hl).
  - now rewrite (find_close_app c rest Hc).
  - destruct c; discriminate.
Qed.

Lemma segments_unterminated (l c : bytes) :
  occurs startSeq l = false -> occurs endSeq c = false -> c <> [] ->
  segments (l ++ startSeq ++ c) = [Literal l; Script c false].
Proof.
  intros Hl Hc Hne. rewrite segments_unfold, (find_open_app l _ Hl Hne).
  rewrite (find_close_none _ Hc). now destruct c.
Qed.

(** The segments of a document are the document. *)
Lemma flat_segments_upto (n : nat) :
  forall doc, length doc < n -> flat (segments_upto n doc) = doc.
Proof.
  induction n as [|n IH]; intros doc Hn; [lia|].
  cbn [segments_upto].
  destruct (find_open doc) as [[l r]|] eqn:Eo.
  - pose proof (find_open_spec _ _ _ Eo) as [-> Hr].
    destruct (find_close r) as [[c r']|] eqn:Ec.
    + pose proof (find_close_spec _ _ _ Ec) as ->.
      unfold flat. cbn [flat_map flat1]. fold (flat (segments_upto n r')).
      rewrite IH.
      * now rewrite <- !app_assoc.
      * rewrite !length_app in Hn. simpl in Hn. lia.
    + destruct r as [|b r]; [congruence|].
      unfold flat. cbn [flat_map flat1]. now rewrite !app_nil_r.
  - unfold flat. cbn. apply app_nil_r.
Qed.

Lemma flat_segments (doc : bytes) : flat (segments doc) = doc.
Proof. apply flat_segments_upto. lia. Qed.

(* ================================================================= *)
(** ** Facts on [print] *)

Section PrintFacts.
Variable I : Lua.

Lemma print_for_join (rest : list (LValue I)) :
  forall (done : list (LValue I)) (buf : bytes),
  print_for I (length rest) (S (length done)) (length (done ++ rest)) (done ++ rest) buf =
  buf ++ join (B " ") (map (LString I) rest).
Proof.
  induction rest as [|v rest IH]; intros done buf.
  - simpl. now rewrite app_nil_r.
  - cbn [print_for length].
    assert (Hle : (S (length done) <=? length (done ++ v :: rest)) = true).
    { apply Nat.leb_le. rewrite length_app. simpl. lia. }
    rewrite Hle. cbn [Get]. rewrite nth_middle.
    destruct rest as [|v' rest].
    + assert (Heq : (S (length done) =? length (done ++ [v])) = true).
      { apply Nat.eqb_eq. rewrite length_app. simpl. lia. }
      rewrite Heq. reflexivity.
    + assert (Hne : (S (length done) =? length (done ++ v :: v' :: rest)) = false).
      { apply Nat.eqb_neq. rewrite length_app. simpl. lia. }
      rewrite Hne. cbn [negb].
      specialize (IH (done ++ [v]) ((buf ++ LString I v) ++ B " ")).
      rewrite <- app_assoc in IH. cbn [app] in IH.
      replace (S (length (done ++ [v]))) with (S (S (length done))) in IH
        by (rewrite length_app; simpl; lia).
      rewrite IH. cbn [map join]. now rewrite <- !app_assoc.
Qed.

Lemma print_spec (stack : list (LValue I)) (buf : bytes) :
  print I stack buf = (buf ++ join (B " ") (map (LString I) stack) ++ [newline], 0).
Proof.
  unfold print. pose proof (print_for_join stack [] buf) as H.
  cbn [app length] in H. rewrite H. now rewrite <- app_assoc.
Qed.

Lemma run_prints_spec (prints : list (list (LValue I))) (buf : bytes) :
  run_prints I prints buf = buf ++ flat_map (printed I) prints.
Proof.
  unfold run_prints. revert buf; induction prints as [|p ps IH]; intros buf.
  - simpl. now rewrite app_nil_r.
  - cbn [fold_left flat_map]. rewrite IH, print_spec. cbn [fst].
    unfold printed. now rewrite <- !app_assoc.
Qed.
End PrintFacts.

(* ================================================================= *)
(** ** Facts on the pass over segments *)

Lemma write_bytes_buffer (o l : bytes) :
  write_bytes BytesBuffer o l = (o ++ l, None).
Proof.
  revert o; induction l as [|b l IH]; intros o.
  - simpl. now rewrite app_nil_r.
  - cbn [write_bytes BytesBuffer Write]. rewrite IH, <- app_assoc. reflexivity.
Qed.

Lemma count_nl_flat1 (g : segment) :
  count_nl (flat1 g) =
  match g with Literal l => count_nl l | Script c _ => count_nl c end.
Proof.
  destruct g as [l|c [|]]; cbn [flat1]; rewrite ?count_nl_app.
  - reflexivity.
  - change (count_nl startSeq) with 0. change (count_nl endSeq) with 0. lia.
  - change (count_nl startSeq) with 0. lia.
Qed.

Lemma flat_cons (g : segment) (segs : list segment) :
  flat (g :: segs) = flat1 g ++ flat segs.
Proof. reflexivity. Qed.

Section RenderFacts.
Variable I : Lua.

(** When every region of [pre] runs without error, the pass reaches
    what follows [pre] with the text of [pre] in the buffer. *)
Lemma render_app_runs (pre : list segment) :
  forall st st1 mid, runs I pre st = Some (st1, mid) ->
  forall post ln o cs so, exists so',
  render I BytesBuffer (pre ++ post) ln st o cs so =
  render I BytesBuffer post (ln + count_nl (flat pre)) st1 (o ++ mid)
         (cs ++ scripts pre) so'.
Proof.
  induction pre as [|g pre IH]; intros st st1 mid Hr post ln o cs so.
  - injection Hr as <- <-. exists so. cbn.
    change (count_nl (flat [])) with 0.
    now rewrite Nat.add_0_r, !app_nil_r.
  - destruct g as [l|c closed]; cbn [runs] in Hr.
    + destruct (runs I pre st) as [[st2 t2]|] eqn:E; [|discriminate].
      cbn in Hr. injection Hr as <- <-.
      destruct (IH _ _ _ E post (ln + count_nl l) (o ++ l) cs so) as [so' H].
      exists so'. cbn [app render]. rewrite write_bytes_buffer, H.
      rewrite flat_cons, count_nl_app. cbn [flat1 scripts].
      now rewrite Nat.add_assoc, <- app_assoc.
    + destruct (DoString I st c) as [[prints st2] [e|]] eqn:Ed; [discriminate|].
      destruct (runs I pre st2) as [[st3 t3]|] eqn:E; [|discriminate].
      cbn in Hr. injection Hr as <- <-.
      destruct (IH _ _ _ E post (ln + count_nl c)
                   (o ++ run_prints I prints []) (cs ++ [c])
                   (if closed then so else so ++ B "sending to Lua interpreter: " ++ c))
        as [so' H].
      exists so'. cbn [app render]. rewrite Ed. cbn [BytesBuffer Write].
      rewrite H, flat_cons, count_nl_app, count_nl_flat1. cbn [scripts].
      now rewrite Nat.add_assoc, <- !app_assoc.
Qed.

Lemma render_runs (segs : list segment) (st st1 : LState I) (text : bytes) :
  runs I segs st = Some (st1, text) ->
  forall ln o cs so, exists so',
  render I BytesBuffer segs ln st o cs so =
  @mkResult BytesBuffer None (o ++ text) (cs ++ scripts segs) so'.
Proof.
  intros Hr ln o cs so.
  destruct (render_app_runs segs _ _ _ Hr [] ln o cs so) as [so' H].
  exists so'. now rewrite app_nil_r in H.
Qed.

(** The chunks dispatched by the pass are regions of the document, in
    document order; all of them when the pass succeeds. *)
Lemma render_calls (W : Writer) (segs : list segment) :
  forall ln st o cs so, exists done rest,
  res_calls (render I W segs ln st o cs so) = cs ++ done /\
  scripts segs = done ++ rest /\
  (res_err (render I W segs ln st o cs so) = None -> rest = []).
Proof.
  induction segs as [|g segs IH]; intros ln st o cs so.
  - exists [], []. cbn. now rewrite app_nil_r.
  - destruct g as [l|c closed]; cbn [render scripts].
    + destruct (write_bytes W o l) as [o' [e|]].
      * exists [], (scripts segs). cbn. rewrite app_nil_r.
        repeat split; discriminate.
      * apply IH.
    + destruct (DoString I st c) as [[prints st'] [e|]].
      * exists [c], (scripts segs). cbn. repeat split; discriminate.
      * destruct (Write W o (run_prints I prints [])) as [o' ?].
        destruct (IH (ln + count_nl c) st' o' (cs ++ [c])
                     (if closed then so else so ++ B "sending to Lua interpreter: " ++ c))
          as [done [rest [H1 [H2 H3]]]].
        exists (c :: done), rest. rewrite H1, H2, <- app_assoc.
        repeat split; assumption.
Qed.
End RenderFacts.

(* ================================================================= *)
(** ** Properties of the marker scanner *)

(** X2: [isStart] in terms of the document: it answers true exactly
    when the five bytes of the open marker stand at the offset and
    at least one more byte follows them. *)
Lemma isStart_spec (i : nat) (src : bytes) :
  isStart i src = true <->
  firstn (length startSeq) (skipn i src) = startSeq /\ i + length startSeq < length src.
Proof.
  rewrite isStart_opens. unfold opens.
  rewrite andb_true_iff, Nat.ltb_lt, starts_with_spec, length_skipn. split.
  - intros [[r Hr] Hlen]. split; [|lia].
    rewrite Hr. now rewrite firstn_app, firstn_all, Nat.sub_diag, firstn_0, app_nil_r.
  - intros [Hf Hlen]. split; [|lia].
    exists (skipn (length startSeq) (skipn i src)).
    rewrite <- Hf at 1. symmetry. apply firstn_skipn.
Qed.

(** X1: [isEnd] in terms of the document: it answers true exactly
    when the two bytes of the close marker stand at the offset,
    inside the document; the marker may be its last two bytes. *)
Lemma isEnd_spec (i : nat) (src : bytes) :
  isEnd i src = true <->
  firstn (length endSeq) (skipn i src) = endSeq /\ i + length endSeq <= length src.
Proof.
  rewrite isEnd_closes. unfold closes. rewrite starts_with_spec. split.
  - intros [r Hr]. split.
    + rewrite Hr. reflexivity.
    + apply (f_equal (@length byte)) in Hr. rewrite length_skipn in Hr.
      simpl in Hr. simpl. lia.
  - intros [Hf _]. exists (skipn (length endSeq) (skipn i src)).
    rewrite <- Hf at 1. symmetry. apply firstn_skipn.
Qed.

(** C7, evaluated on the code: in the five-byte document [<?lua] the
    open marker matches at offset 0 and lies fully inside the
    document, yet [isStart] answers false, because its guard
    [start+5 >= len(slice)] asks for one byte after the marker.  The
    driver then copies the marker to the sink as literal text. *)
Theorem isStart_misses_marker_at_end :
  firstn (length startSeq) (skipn 0 (B "<?lua")) = startSeq /\
  0 + length startSeq <= length (B "<?lua") /\
  isStart 0 (B "<?lua") = false /\
  Interpret MiniLua.interp BytesBuffer [] (B "a<?lua") =
  Some (@mkResult BytesBuffer None (B "a<?lua") [] []).
Proof.
  repeat split.
  simpl. lia.
Qed.

(* ================================================================= *)
(** ** Properties of [print] *)

(** C8: a call of [print] with the values [v1 .. vn] appends to the
    script output buffer their texts separated by one space each and
    then one newline, and returns no value; the calls of one
    execution append one after the other, so that the buffer only
    grows.  The buffer is the [luaOut] of the driver: running a chunk
    leaves in it what it held followed by the text of every call the
    chunk made, in order; that buffer is what a dispatch writes to
    the sink, the only write of the dispatch, and the pending script,
    the chunks dispatched before and the document are as they were.
    So a document made of one region becomes the text of the calls
    of its chunk. *)
Theorem print_appends (I : Lua) :
  (forall stack buf,
     print I stack buf = (buf ++ join (B " ") (map (LString I) stack) ++ [newline], 0)) /\
  (forall prints buf,
     run_prints I prints buf = buf ++ flat_map (printed I) prints) /\
  (forall prints more buf,
     run_prints I (prints ++ more) buf = run_prints I more (run_prints I prints buf)) /\
  (forall W (s : state I W),
     doString s =
     let '(prints, st', e) := DoString I (L s) (luaIn s) in
     (luaOut s ++ flat_map (printed I) prints, st', e)) /\
  (forall W src i (s : state I W) prints st',
     inCode s = true -> isEnd i src = true ->
     DoString I (L s) (luaIn s) = (prints, st', None) ->
     exists ln,
       body src i s =
       Next (S i) (mkState false ln [] [] st'
                           (fst (Write W (out s) (luaOut s ++ flat_map (printed I) prints)))
                           (calls s ++ [luaIn s]) (stdout s))) /\
  (forall out0 c,
     occurs endSeq c = false ->
     Interpret I BytesBuffer out0 (startSeq ++ c ++ endSeq) =
     Some (let '(prints, st', e) := DoString I (NewState I) c in
           match e with
           | Some err =>
               @mkResult BytesBuffer (Some (Errorf (1 + count_nl c) err)) out0 [c] []
           | None =>
               @mkResult BytesBuffer None (out0 ++ flat_map (printed I) prints) [c] []
           end)).
Proof.
  split; [|split; [|split; [|split; [|split]]]].
  - apply print_spec.
  - apply run_prints_spec.
  - intros prints more buf. unfold run_prints. apply fold_left_app.
  - intros W s. unfold doString.
    destruct (DoString I (L s) (luaIn s)) as [[prints st'] e].
    now rewrite run_prints_spec.
  - intros W src i s prints st' Hin He Hd.
    unfold body, doString. rewrite Hin, He, Hd, run_prints_spec.
    destruct (Write W (out s) (luaOut s ++ flat_map (printed I) prints)).
    eexists. reflexivity.
  - intros out0 c Hc.
    assert (Hseg : segments (startSeq ++ c ++ endSeq) =
                   [Literal []; Script c true; Literal []]).
    { replace (startSeq ++ c ++ endSeq) with ([] ++ startSeq ++ c ++ endSeq ++ [])
        by (now rewrite app_nil_r).
      now rewrite (segments_region [] c [] eq_refl Hc). }
    rewrite Interpret_render, Hseg. cbn [render write_bytes].
    destruct (DoString I (NewState I) c) as [[prints st'] [e|]].
    + reflexivity.
    + cbn [BytesBuffer Write]. rewrite run_prints_spec.
      cbn [app]. reflexivity.
Qed.

Lemma print_appends_witness :
  (exists ln,
     body doc_two 15 (in_code MiniLua.interp BytesBuffer 1 chunk_one [] (B "a") [] []) =
     Next 16 (@mkState MiniLua.interp BytesBuffer false ln [] [] []
                       (B "a1" ++ [newline]) [chunk_one] [])) /\
  Interpret MiniLua.interp BytesBuffer (B "a")
    (startSeq ++ B " print(1, true) print(nil) " ++ endSeq) =
  Some (@mkResult BytesBuffer None
          (B "a1 true" ++ [newline] ++ B "nil" ++ [newline])
          [B " print(1, true) print(nil) "] []).
Proof.
  split.
  - exact (proj1 (proj2 (proj2 (proj2 (proj2 (print_appends MiniLua.interp)))))
             BytesBuffer doc_two 15
             (in_code MiniLua.interp BytesBuffer 1 chunk_one [] (B "a") [] [])
             [[MiniLua.VNumber 1]] [] eq_refl eq_refl eq_refl).
  - exact (proj2 (proj2 (proj2 (proj2 (proj2 (print_appends MiniLua.interp)))))
             (B "a") (B " print(1, true) print(nil) ") eq_refl).
Defined.

(* ================================================================= *)
(** ** Properties of [Interpret] *)

(** C2: a document in which the open marker does not occur is copied
    to the sink unchanged, and [Interpret] returns no error. *)
Theorem Interpret_identity (I : Lua) (out0 src : bytes) :
  occurs startSeq src = false ->
  Interpret I BytesBuffer out0 src =
  Some (@mkResult BytesBuffer None (out0 ++ src) [] []).
Proof.
  intros H. rewrite Interpret_render, (segments_text _ H).
  cbn [render]. now rewrite write_bytes_buffer.
Qed.

Lemma Interpret_identity_witness :
  occurs startSeq (B "Hello, <b>world</b>? <?lu") = false /\
  Interpret MiniLua.interp BytesBuffer [] (B "Hello, <b>world</b>? <?lu") =
  Some (@mkResult BytesBuffer None (B "Hello, <b>world</b>? <?lu") [] []).
Proof.
  split; [reflexivity|].
  exact (Interpret_identity MiniLua.interp [] (B "Hello, <b>world</b>? <?lu") eq_refl).
Defined.

Lemma segments_hello :
  segments doc_hello = [Literal (B "Hello "); Script chunk_hello true; Literal (B "!")].
Proof. vm_compute. reflexivity. Qed.

(** C1: when every region of the document runs without error,
    [Interpret] returns no error and the sink holds the literal text
    of the document with each region replaced by what the region
    printed while it ran ([runs]); the regions were dispatched in
    document order.  In particular [Hello <?lua print("World") ?>!]
    becomes [Hello World], a newline and [!], for every interpreter in
    which that chunk makes one call of [print] with a value whose
    text is [World]. *)
Theorem Interpret_substitutes (I : Lua) :
  (forall out0 src st1 text,
     runs I (segments src) (NewState I) = Some (st1, text) ->
     exists so,
       Interpret I BytesBuffer out0 src =
       Some (@mkResult BytesBuffer None (out0 ++ text) (scripts (segments src)) so)) /\
  (forall v st1,
     DoString I (NewState I) chunk_hello = ([[v]], st1, None) ->
     LString I v = B "World" ->
     Interpret I BytesBuffer [] doc_hello =
     Some (@mkResult BytesBuffer None (B "Hello World" ++ [newline] ++ B "!")
                     [chunk_hello] [])).
Proof.
  split.
  - intros out0 src st1 text Hr. rewrite Interpret_render.
    destruct (render_runs I _ _ _ _ Hr 1 out0 [] []) as [so H].
    exists so. now rewrite H.
  - intros v st1 Hd Hv. rewrite Interpret_render, segments_hello.
    cbn [render]. rewrite write_bytes_buffer, Hd.
    cbn [BytesBuffer Write]. rewrite write_bytes_buffer, run_prints_spec.
    cbn [flat_map]. unfold printed. cbn [map join]. rewrite Hv. reflexivity.
Qed.

Lemma Interpret_substitutes_witness :
  (exists so,
     Interpret MiniLua.interp BytesBuffer [] doc_hello =
     Some (@mkResult BytesBuffer None (B "Hello World" ++ [newline] ++ B "!")
                     [chunk_hello] so)) /\
  Interpret MiniLua.interp BytesBuffer [] doc_hello =
  Some (@mkResult BytesBuffer None (B "Hello World" ++ [newline] ++ B "!")
                  [chunk_hello] []).
Proof.
  split.
  - exact (proj1 (Interpret_substitutes MiniLua.interp) [] doc_hello []
                 (B "Hello World" ++ [newline] ++ B "!") eq_refl).
  - exact (proj2 (Interpret_substitutes MiniLua.interp)
                 (MiniLua.VString (B "World")) [] eq_refl eq_refl).
Defined.

Lemma flat_app (a b : list segment) : flat (a ++ b) = flat a ++ flat b.
Proof. unfold flat. apply flat_map_app. Qed.

(** The line on which a region ends: the line of its close marker,
    or the last line of the document for a region left open. *)
Lemma region_line (src : bytes) (pre : list segment) (c : bytes) (closed : bool)
      (post : list segment) :
  segments src = pre ++ Script c closed :: post ->
  line_of src (length (flat pre ++ startSeq ++ c)) = 1 + count_nl (flat pre) + count_nl c.
Proof.
  intros H. unfold line_of.
  assert (Hs : exists tail, src = (flat pre ++ startSeq ++ c) ++ tail).
  { rewrite <- (flat_segments src), H, flat_app, flat_cons.
    destruct closed; cbn [flat1].
    - exists (endSeq ++ flat post). now rewrite <- !app_assoc.
    - exists (flat post). now rewrite <- !app_assoc. }
  destruct Hs as [tail ->].
  rewrite firstn_app, firstn_all, Nat.sub_diag, firstn_0, app_nil_r.
  rewrite !count_nl_app. change (count_nl startSeq) with 0. lia.
Qed.

(** The error returned when the region [c] fails after the regions
    of [pre] ran. *)
Lemma Interpret_error_at (I : Lua) (out0 src : bytes) (pre : list segment) (c : bytes)
      (closed : bool) (post : list segment) (st1 : LState I) (mid : bytes)
      (prints : list (list (LValue I))) (st2 : LState I) (e : error) :
  segments src = pre ++ Script c closed :: post ->
  runs I pre (NewState I) = Some (st1, mid) ->
  DoString I st1 c = (prints, st2, Some e) ->
  exists so,
    Interpret I BytesBuffer out0 src =
    Some (@mkResult BytesBuffer
            (Some (Errorf (line_of src (length (flat pre ++ startSeq ++ c))) e))
            (out0 ++ mid) (scripts pre ++ [c]) so).
Proof.
  intros Hseg Hr Hd.
  rewrite (region_line _ _ _ _ _ Hseg), Interpret_render, Hseg.
  destruct (render_app_runs I pre _ _ _ Hr (Script c closed :: post) 1 out0 [] [])
    as [so H].
  rewrite H. cbn [render]. rewrite Hd.
  eexists. reflexivity.
Qed.

Lemma segments_boom : segments doc_boom = [Literal []; Script chunk_boom true; Literal []].
Proof. vm_compute. reflexivity. Qed.

(** C3: when a region fails, [Interpret] returns at once an error
    made of a 1-based line of the document and the message of the
    interpreter; the sink holds what was written before the region
    (the text and the output of the regions before it), and no later
    region is dispatched.  In particular [<?lua error("boom") ?>]
    gives the error [Lua Error (Line 1): ] followed by the message of
    the interpreter, and an empty sink. *)
Theorem Interpret_script_error (I : Lua) :
  (forall out0 src pre c closed post st1 mid prints st2 e,
     segments src = pre ++ Script c closed :: post ->
     runs I pre (NewState I) = Some (st1, mid) ->
     DoString I st1 c = (prints, st2, Some e) ->
     exists so,
       Interpret I BytesBuffer out0 src =
       Some (@mkResult BytesBuffer
               (Some (Errorf (line_of src (length (flat pre ++ startSeq ++ c))) e))
               (out0 ++ mid) (scripts pre ++ [c]) so)) /\
  (forall prints st1 e,
     DoString I (NewState I) chunk_boom = (prints, st1, Some e) ->
     Interpret I BytesBuffer [] doc_boom =
     Some (@mkResult BytesBuffer (Some (B "Lua Error (Line 1): " ++ e)) []
                     [chunk_boom] [])).
Proof.
  split.
  - intros out0 src pre c closed post st1 mid prints st2 e Hseg Hr Hd.
    exact (Interpret_error_at I out0 src pre c closed post st1 mid prints st2 e
             Hseg Hr Hd).
  - intros prints st1 e Hd. rewrite Interpret_render, segments_boom.
    cbn [render write_bytes]. rewrite Hd. reflexivity.
Qed.

Lemma Interpret_script_error_witness :
  (exists so,
     Interpret MiniLua.interp BytesBuffer [] (B "a<?lua print(1) ?>b" ++ [newline] ++ doc_boom ++ B "c") =
     Some (@mkResult BytesBuffer
             (Some (B "Lua Error (Line 2): <string>: boom"))
             (B "a1" ++ [newline] ++ B "b" ++ [newline]) [chunk_one; chunk_boom] so)) /\
  Interpret MiniLua.interp BytesBuffer [] doc_boom =
  Some (@mkResult BytesBuffer (Some (B "Lua Error (Line 1): <string>: boom")) []
                  [chunk_boom] []).
Proof.
  split.
  - exact (proj1 (Interpret_script_error MiniLua.interp) []
             (B "a<?lua print(1) ?>b" ++ [newline] ++ doc_boom ++ B "c")
             [Literal (B "a"); Script chunk_one true; Literal (B "b" ++ [newline])]
             chunk_boom true [Literal (B "c")]
             [] (B "a1" ++ [newline] ++ B "b" ++ [newline]) [] [] (B "<string>: boom")
             eq_refl eq_refl eq_refl).
  - exact (proj2 (Interpret_script_error MiniLua.interp) [] [] (B "<string>: boom") eq_refl).
Defined.

(** C10: inside a region the scanner looks for the two bytes of the
    close marker and for nothing else.  When [c] holds no close
    marker, the region opened in front of [c] ends at the close
    marker after [c], whatever [c] contains (an open marker, half of
    a Lua string): the first chunk dispatched is [c], and the pass
    goes on with the text after the close marker. *)
Theorem region_ends_at_first_close (I : Lua) (out0 l c rest : bytes) :
  occurs startSeq l = false -> occurs endSeq c = false ->
  exists r,
    Interpret I BytesBuffer out0 (l ++ startSeq ++ c ++ endSeq ++ rest) = Some r /\
    hd_error (res_calls r) = Some c /\
    r = (let '(prints, st', e) := DoString I (NewState I) c in
         match e with
         | Some err =>
             @mkResult BytesBuffer (Some (Errorf (1 + count_nl l + count_nl c) err))
                       (out0 ++ l) [c] []
         | None =>
             render I BytesBuffer (segments rest) (1 + count_nl l + count_nl c) st'
                    ((out0 ++ l) ++ run_prints I prints []) [c] []
         end).
Proof.
  intros Hl Hc. eexists. split; [|split].
  - rewrite Interpret_render, (segments_region _ _ _ Hl Hc). reflexivity.
  - cbn [render]. rewrite write_bytes_buffer.
    destruct (DoString I (NewState I) c) as [[prints st'] [e|]]; [reflexivity|].
    cbn [BytesBuffer Write app].
    destruct (render_calls I BytesBuffer (segments rest) (1 + count_nl l + count_nl c) st'
                ((out0 ++ l) ++ run_prints I prints []) [c] [])
      as [done [rest' [H _]]].
    cbn [BytesBuffer sink] in *. rewrite H. reflexivity.
  - cbn [render]. rewrite write_bytes_buffer.
    destruct (DoString I (NewState I) c) as [[prints st'] [e|]]; reflexivity.
Qed.

Lemma region_ends_at_first_close_witness :
  (exists r,
     Interpret MiniLua.interp BytesBuffer []
       (B "a" ++ startSeq ++ B " print(1) <?lua print(2) " ++ endSeq ++ B "b") = Some r /\
     hd_error (res_calls r) = Some (B " print(1) <?lua print(2) ")) /\
  (exists r,
     Interpret MiniLua.interp BytesBuffer []
       ([] ++ startSeq ++ (B " print(" ++ [x22]) ++ endSeq ++ ([x22] ++ B ") ?>")) = Some r /\
     hd_error (res_calls r) = Some (B " print(" ++ [x22])).
Proof.
  split.
  - destruct (region_ends_at_first_close MiniLua.interp []
                (B "a") (B " print(1) <?lua print(2) ") (B "b") eq_refl eq_refl)
      as [r [H1 [H2 _]]].
    exists r. split; assumption.
  - destruct (region_ends_at_first_close MiniLua.interp []
                [] (B " print(" ++ [x22]) ([x22] ++ B ") ?>") eq_refl eq_refl)
      as [r [H1 [H2 _]]].
    exists r. split; assumption.
Defined.

(** C6: the statements after the loop.  In a region that is still
    open at the end of the document, pending script text is
    dispatched once more; when it runs without error what it printed
    is written to the sink and [Interpret] returns no error, and the
    only error that can be returned is that of the script.  With no
    pending text nothing is dispatched.  For a document that ends in
    an open region with text [c], this gives the text before the
    region followed by what [c] printed. *)
Theorem unterminated_region_runs (I : Lua) :
  (forall W (s : state I W),
     inCode s = true -> luaIn s <> [] ->
     finish s =
     let '(text, st', e) := doString s in
     let so := stdout s ++ B "sending to Lua interpreter: " ++ luaIn s in
     match e with
     | Some err => mkResult (Some (Errorf (line s) err)) (out s) (calls s ++ [luaIn s]) so
     | None => mkResult None (fst (Write W (out s) text)) (calls s ++ [luaIn s]) so
     end) /\
  (forall W (s : state I W),
     luaIn s = [] -> finish s = mkResult None (out s) (calls s) (stdout s)) /\
  (forall out0 l c,
     occurs startSeq l = false -> occurs endSeq c = false -> c <> [] ->
     Interpret I BytesBuffer out0 (l ++ startSeq ++ c) =
     Some (let '(prints, st', e) := DoString I (NewState I) c in
           let so := B "sending to Lua interpreter: " ++ c in
           match e with
           | Some err =>
               @mkResult BytesBuffer (Some (Errorf (1 + count_nl l + count_nl c) err))
                         (out0 ++ l) [c] so
           | None =>
               @mkResult BytesBuffer None ((out0 ++ l) ++ run_prints I prints []) [c] so
           end)).
Proof.
  split; [|split].
  - intros W s Hin Hne. unfold finish. rewrite Hin.
    destruct (luaIn s) as [|b t] eqn:E; [congruence|]. cbn [length Nat.ltb Nat.leb andb].
    destruct (doString s) as [[text st'] [e|]]; [reflexivity|].
    now destruct (Write W (out s) text).
  - intros W s Hnil. unfold finish. rewrite Hnil. cbn [length Nat.ltb Nat.leb].
    now rewrite andb_false_r.
  - intros out0 l c Hl Hc Hne.
    rewrite Interpret_render, (segments_unterminated _ _ Hl Hc Hne).
    cbn [render]. rewrite write_bytes_buffer.
    destruct (DoString I (NewState I) c) as [[prints st'] [e|]]; reflexivity.
Qed.

Lemma unterminated_region_runs_witness :
  finish (in_code MiniLua.interp BytesBuffer 1 (B "print(7)") [] (B "a") [] []) =
    @mkResult BytesBuffer None (B "a7" ++ [newline]) [B "print(7)"]
              (B "sending to Lua interpreter: print(7)") /\
  finish (in_code MiniLua.interp BytesBuffer 1 [] [] (B "a") [] []) =
    @mkResult BytesBuffer None (B "a") [] [] /\
  Interpret MiniLua.interp BytesBuffer [] (B "a" ++ startSeq ++ B " print(7)") =
    Some (@mkResult BytesBuffer None (B "a7" ++ [newline]) [B " print(7)"]
                    (B "sending to Lua interpreter:  print(7)")).
Proof.
  split; [|split].
  - refine (proj1 (unterminated_region_runs MiniLua.interp) BytesBuffer
              (in_code MiniLua.interp BytesBuffer 1 (B "print(7)") [] (B "a") [] [])
              eq_refl _).
    discriminate.
  - exact (proj1 (proj2 (unterminated_region_runs MiniLua.interp)) BytesBuffer
             (in_code MiniLua.interp BytesBuffer 1 [] [] (B "a") [] []) eq_refl).
  - refine (proj2 (proj2 (unterminated_region_runs MiniLua.interp)) []
              (B "a") (B " print(7)") eq_refl eq_refl _).
    discriminate.
Defined.

(* ================================================================= *)
(** ** Facts on the states at the head of the loop *)

Lemma head_after_at_head (I : Lua) (W : Writer) (out0 : sink W) (src : bytes) (n : nat) :
  forall i s i' s',
  at_head I W out0 src i s ->
  head_after I W n src i s = Some (i', s') ->
  at_head I W out0 src i' s'.
Proof.
  induction n as [|n IH]; intros i s i' s' Hat H.
  - injection H as <- <-. exact Hat.
  - cbn [head_after] in H.
    destruct (Nat.ltb_spec i (length src)) as [Hi|Hi]; [|discriminate].
    destruct (body src i s) as [j s1|r] eqn:Eb; [|discriminate].
    apply (IH (S j) s1 i' s'); [|exact H].
    exact (head_next I W out0 src i s j s1 Hat Hi Eb).
Qed.

Lemma firstn_add (i k : nat) (src : bytes) :
  firstn (i + k) src = firstn i src ++ firstn k (skipn i src).
Proof.
  revert src; induction i as [|i IH]; intros src; [reflexivity|].
  destruct src as [|b src]; cbn [Nat.add firstn skipn app].
  - now rewrite firstn_nil.
  - now rewrite IH.
Qed.

Lemma count_nl_firstn_app (m r : bytes) :
  count_nl (firstn (length m) (m ++ r)) = count_nl m.
Proof. now rewrite firstn_app, firstn_all, Nat.sub_diag, firstn_0, app_nil_r. Qed.

(** At the head of the loop the counter is the line of the byte
    under the cursor: markers hold no line terminator, so none is
    passed over when the cursor jumps. *)
Lemma at_head_line (I : Lua) (W : Writer) (out0 : sink W) (src : bytes)
      (i : nat) (s : state I W) :
  at_head I W out0 src i s -> line s = line_of src i.
Proof.
  induction 1 as [|i s j s' Hat IH Hi Hb]; [reflexivity|].
  rewrite body_suffix in Hb.
  destruct (skipn i src) as [|b t] eqn:E.
  { apply (f_equal (@length byte)) in E. rewrite length_skipn in E. simpl in E. lia. }
  assert (Hstep : forall k, line_of src (i + k) = line s + count_nl (firstn k (b :: t))).
  { intros k. unfold line_of. rewrite firstn_add, count_nl_app, E, IH.
    unfold line_of. now rewrite Nat.add_assoc. }
  rewrite body_cons in Hb. cbv zeta in Hb.
  destruct (inCode s).
  - destruct (closes (b :: t)) eqn:Ec.
    + destruct (doString s) as [[lo st'] [e|]]; [discriminate|].
      destruct (Write W (out s) lo). injection Hb as <- <-. cbn [line].
      rewrite (closes_not_newline _ _ Ec).
      replace (S (i + 1)) with (i + length endSeq) by (simpl; lia). rewrite Hstep.
      rewrite (closes_spec _ Ec), count_nl_firstn_app.
      change (count_nl endSeq) with 0. lia.
    + injection Hb as <- <-. cbn [line].
      replace (S (i + 0)) with (i + 1) by lia. rewrite Hstep.
      cbn [firstn]. rewrite count_nl_cons. change (count_nl []) with 0.
      destruct (Byte.eqb b newline); lia.
  - destruct (opens (b :: t)) eqn:Eo.
    + injection Hb as <- <-. cbn [line].
      rewrite (opens_not_newline _ _ Eo).
      replace (S (i + 4)) with (i + length startSeq) by (simpl; lia). rewrite Hstep.
      rewrite (proj1 (opens_spec _ Eo)), count_nl_firstn_app.
      change (count_nl startSeq) with 0. lia.
    + destruct (Write W (out s) [b]) as [o [e|]]; [discriminate|].
      injection Hb as <- <-. cbn [line].
      replace (S (i + 0)) with (i + 1) by lia. rewrite Hstep.
      cbn [firstn]. rewrite count_nl_cons. change (count_nl []) with 0.
      destruct (Byte.eqb b newline); lia.
Qed.





(* ================================================================= *)
(** ** The line reported with a script error *)

(** C5, as stated, fails: in [doc_late] the script is the bytes at
    offsets 5 to 20, its failing call of [error] stands on line 1 and
    no byte of it stands on line 3, and the line reported is 3. *)
Lemma reported_line_is_not_the_failing_line :
  ~ reports_line_of_script MiniLua.interp doc_late 5 21.
Proof.
  intros H.
  destruct (H (@mkResult BytesBuffer (Some (Errorf 3 (B "<string>: boom"))) []
                 [chunk_late] [])
              3 (B "<string>: boom") eq_refl eq_refl) as [k [Hk Hl]].
  assert (Hall : forallb (fun k => negb (line_of doc_late k =? 3)) (seq 5 16) = true)
    by (vm_compute; reflexivity).
  rewrite forallb_forall in Hall.
  assert (Hin : In k (seq 5 16)) by (apply in_seq; lia).
  apply Hall in Hin. rewrite Hl in Hin. discriminate.
Qed.

(** C5, amended: each iteration adds one to the line counter exactly
    when the byte under the cursor is a line terminator, inside and
    outside a region; no line terminator is passed over, so that at
    the head of the loop the counter is the line of the byte under
    the cursor, and the line of the end of the document when the
    loop is left.  The line reported with the error of a region is
    therefore the line on which the region ends: the line of its
    close marker, or the last line of the document for a region left
    open.  Nothing relates it to the place of the failure inside the
    region. *)
Theorem line_counter (I : Lua) :
  (forall W src i (s : state I W) j s',
     body src i s = Next j s' ->
     line s' = (if Byte.eqb (index src i) newline then 1 else 0) + line s) /\
  (forall W out0 src i (s : state I W),
     at_head I W out0 src i s -> line s = line_of src i) /\
  (forall W out0 src i (s : state I W) prints st' e,
     at_head I W out0 src i s -> inCode s = true -> isEnd i src = true ->
     DoString I (L s) (luaIn s) = (prints, st', Some e) ->
     body src i s =
     Return (mkResult (Some (Errorf (line_of src i) e)) (out s)
                      (calls s ++ [luaIn s]) (stdout s))) /\
  (forall W out0 src (s : state I W),
     loop (length src) src 0 (init I W out0) = Some (Exit s) ->
     line s = line_of src (length src)) /\
  (forall out0 src pre c closed post st1 mid prints st2 e,
     segments src = pre ++ Script c closed :: post ->
     runs I pre (NewState I) = Some (st1, mid) ->
     DoString I st1 c = (prints, st2, Some e) ->
     exists r,
       Interpret I BytesBuffer out0 src = Some r /\
       res_err r =
       Some (Errorf (line_of src (length (flat pre ++ startSeq ++ c))) e)).
Proof.
  split; [|split; [|split; [|split]]].
  - intros W src i s j s' Hb. unfold body in Hb.
    change x0a with newline in Hb.
    destruct (inCode s).
    + destruct (isEnd i src).
      * destruct (doString s) as [[lo st'] [e|]]; [discriminate|].
        destruct (Write W (out s) lo). injection Hb as _ <-. cbn.
        now destruct (Byte.eqb (index src i) newline).
      * injection Hb as _ <-. cbn. now destruct (Byte.eqb (index src i) newline).
    + destruct (isStart i src).
      * injection Hb as _ <-. cbn. now destruct (Byte.eqb (index src i) newline).
      * destruct (Write W (out s) [index src i]) as [o [e|]]; [discriminate|].
        injection Hb as _ <-. cbn. now destruct (Byte.eqb (index src i) newline).
  - intros W out0 src i s H. now apply at_head_line in H.
  - intros W out0 src i s prints st' e Hat Hin He Hd.
    apply at_head_line in Hat.
    assert (Hq : Byte.eqb (index src i) x0a = false).
    { rewrite isEnd_closes in He. rewrite index_hd.
      destruct (skipn i src) as [|b t]; [discriminate|].
      exact (closes_not_newline _ _ He). }
    unfold body, doString. rewrite Hq, Hin, He, Hd, Hat. reflexivity.
  - intros W out0 src s H. rewrite loop_scan in H by lia.
    injection H as H. cbn [skipn] in H.
    apply (scan_exit I W (S (length src))) in H as [H _]; [|lia].
    rewrite H. unfold line_of. now rewrite firstn_all.
  - intros out0 src pre c closed post st1 mid prints st2 e Hseg Hr Hd.
    destruct (Interpret_error_at I out0 src pre c closed post st1 mid prints st2 e
                Hseg Hr Hd) as [so H].
    eexists. split; [exact H | reflexivity].
Qed.

Lemma line_counter_witness :
  line (in_text MiniLua.interp BytesBuffer 2 [] (B "a" ++ [newline]) [] []) = 1 + 1 /\
  body doc_late 21 (in_code MiniLua.interp BytesBuffer 3 chunk_late [] [] [] []) =
    Return (@mkResult BytesBuffer (Some (B "Lua Error (Line 3): <string>: boom")) []
                      [chunk_late] []) /\
  exists r,
    Interpret MiniLua.interp BytesBuffer [] doc_late = Some r /\
    res_err r = Some (B "Lua Error (Line 3): <string>: boom").
Proof.
  split; [|split].
  - exact (proj1 (line_counter MiniLua.interp) BytesBuffer (B "a" ++ [newline] ++ B "b") 1
             (in_text MiniLua.interp BytesBuffer 1 [] (B "a") [] [])
             1 (in_text MiniLua.interp BytesBuffer 2 [] (B "a" ++ [newline]) [] [])
             eq_refl).
  - exact (proj1 (proj2 (proj2 (line_counter MiniLua.interp)))
             BytesBuffer [] doc_late 21
             (in_code MiniLua.interp BytesBuffer 3 chunk_late [] [] [] [])
             [] [] (B "<string>: boom")
             (head_after_at_head MiniLua.interp BytesBuffer [] doc_late 17
                0 (init MiniLua.interp BytesBuffer []) 21
                (in_code MiniLua.interp BytesBuffer 3 chunk_late [] [] [] [])
                (head_first _ _ _ _) eq_refl)
             eq_refl eq_refl eq_refl).
  - exact (proj2 (proj2 (proj2 (proj2 (line_counter MiniLua.interp)))) [] doc_late
             [Literal []] chunk_late true [Literal []]
             [] [] [] [] (B "<string>: boom") eq_refl eq_refl eq_refl).
Defined.

(* ================================================================= *)
(** ** Errors of the destination sink *)

(** X6: a write of literal text that fails ends [Interpret] with the
    error of the sink, for every sink: a document without a region is copied byte by
    byte up to the first write that fails. *)
Lemma Interpret_text_any_sink (I : Lua) (W : Writer) (out0 : sink W) (src : bytes) :
  occurs startSeq src = false ->
  Interpret I W out0 src =
  Some (match write_bytes W out0 src with
        | (o, Some e) => mkResult (Some e) o [] []
        | (o, None) => mkResult None o [] []
        end).
Proof.
  intros H. rewrite Interpret_render, (segments_text _ H). cbn [render].
  now destruct (write_bytes W out0 src) as [o [e|]].
Qed.

(** C9, evaluated on the code: the sink [ClosedPipe] refuses every
    write.  The write of literal text that fails is returned as the
    error of [Interpret]; the write that flushes the output of a
    region fails as well, after the loop or inside it, and
    [Interpret] returns no error: [out.Write(luaOut.Bytes())]
    drops what [Write] returns. *)
Theorem flush_error_dropped :
  Write ClosedPipe tt (B "1" ++ [newline]) = (tt, Some (B "io: read/write on closed pipe")) /\
  Interpret MiniLua.interp ClosedPipe tt (B "x") =
    Some (@mkResult ClosedPipe (Some (B "io: read/write on closed pipe")) tt [] []) /\
  Interpret MiniLua.interp ClosedPipe tt (B "<?lua print(1) ?>") =
    Some (@mkResult ClosedPipe None tt [chunk_one] []) /\
  Interpret MiniLua.interp ClosedPipe tt (B "<?lua print(1) ") =
    Some (@mkResult ClosedPipe None tt [chunk_one]
                    (B "sending to Lua interpreter:  print(1) ")) /\
  Interpret MiniLua.interp Limited (0, []) doc_two =
    Some (@mkResult Limited (Some (B "short write")) (0, []) [chunk_one] []).
Proof.
  repeat split.
Qed.

(* ================================================================= *)
(** ** Further properties of the scanner and of the pass *)

Lemma add64_small (a b : Z) :
  (0 <= a)%Z -> (0 <= b)%Z -> (a + b <= MaxInt64)%Z -> add64 a b = (a + b)%Z.
Proof.
  intros Ha Hb Hs. unfold add64, MaxInt64 in *.
  rewrite Z.mod_small; lia.
Qed.

Lemma index_checked_in (s : bytes) (k : Z) :
  (0 <= k)%Z -> (k < len s)%Z -> index_checked s k = Some (index s (Z.to_nat k)).
Proof.
  intros H0 H. unfold index_checked, index, len in *.
  destruct (Z.ltb_spec k 0) as [?|_]; [lia|].
  destruct (Z.leb_spec (Z.of_nat (length s)) k) as [?|_]; [lia|].
  cbn [orb]. apply nth_error_nth'. lia.
Qed.

(** X3: with offsets as Go [int]s and indexing that panics out of
    range, [isStart] never reads outside the slice at an offset
    [start >= 0] whose sum [start+5] does not overflow, and [isEnd]
    at one whose sum [start+1] does not: they return what [isStart]
    and [isEnd] return.  The bound is needed: at [start = MaxInt64]
    the sum [start+1] wraps to a negative number, the guard of
    [isEnd] lets the call through and [slice[start]] panics. *)
Theorem scanner_reads_in_range (start : Z) (slice : bytes) :
  (0 <= start)%Z ->
  ((start + 5 <= MaxInt64)%Z ->
   isStart_checked start slice = Some (isStart (Z.to_nat start) slice)) /\
  ((start + 1 <= MaxInt64)%Z ->
   isEnd_checked start slice = Some (isEnd (Z.to_nat start) slice)) /\
  ((len slice <= MaxInt64)%Z -> isEnd_checked MaxInt64 slice = None).
Proof.
  intros H0. split; [|split].
  - intros Hs. unfold isStart_checked, isStart.
    rewrite (add64_small start 5) by lia.
    destruct (Z.leb_spec (len slice) (start + 5)) as [Hle|Hlt];
      destruct (Nat.leb_spec (length slice) (Z.to_nat start + 5)) as [Hle'|Hlt'];
      unfold len in *; try lia; [reflexivity|].
    cbn [isStart_for_checked seq isStart_for].
    rewrite !add64_small by lia.
    rewrite !index_checked_in by (unfold len; simpl; lia).
    replace (Z.to_nat (start + 0)) with (Z.to_nat start + 0) by lia.
    replace (Z.to_nat (start + 1)) with (Z.to_nat start + 1) by lia.
    replace (Z.to_nat (start + 2)) with (Z.to_nat start + 2) by lia.
    replace (Z.to_nat (start + 3)) with (Z.to_nat start + 3) by lia.
    replace (Z.to_nat (start + 4)) with (Z.to_nat start + 4) by lia.
    change (Z.to_nat 0) with 0. change (Z.to_nat 1) with 1. change (Z.to_nat 2) with 2.
    change (Z.to_nat 3) with 3. change (Z.to_nat 4) with 4.
    destruct (Byte.eqb (index startSeq 0) (index slice (Z.to_nat start + 0))),
             (Byte.eqb (index startSeq 1) (index slice (Z.to_nat start + 1))),
             (Byte.eqb (index startSeq 2) (index slice (Z.to_nat start + 2))),
             (Byte.eqb (index startSeq 3) (index slice (Z.to_nat start + 3))),
             (Byte.eqb (index startSeq 4) (index slice (Z.to_nat start + 4))); reflexivity.
  - intros Hs. unfold isEnd_checked, isEnd.
    rewrite !(add64_small start 1) by lia.
    destruct (Z.leb_spec (len slice) (start + 1)) as [Hle|Hlt];
      destruct (Nat.leb_spec (length slice) (Z.to_nat start + 1)) as [Hle'|Hlt'];
      unfold len in *; try lia; [reflexivity|].
    rewrite !index_checked_in by (unfold len; lia).
    replace (Z.to_nat (start + 1)) with (Z.to_nat start + 1) by lia.
    destruct (Byte.eqb (index slice (Z.to_nat start)) "?"),
             (Byte.eqb (index slice (Z.to_nat start + 1)) ">"); reflexivity.
  - intros Hl. unfold isEnd_checked.
    change (add64 MaxInt64 1) with (- 2 ^ 63)%Z.
    destruct (Z.leb_spec (len slice) (- 2 ^ 63)) as [Hle|_]; [unfold len in *; lia|].
    unfold index_checked.
    destruct (Z.leb_spec (len slice) MaxInt64) as [_|?]; [|lia].
    now rewrite orb_true_r.
Qed.

Lemma scanner_reads_in_range_witness :
  isStart_checked 3 (B "abc<?lua x") = Some true /\
  isEnd_checked 3 (B "abc?>") = Some true /\
  isEnd_checked MaxInt64 (B "abc?>") = None.
Proof.
  assert (H0 : (0 <= 3)%Z) by lia.
  split; [|split].
  - refine (proj1 (scanner_reads_in_range 3 (B "abc<?lua x") H0) _).
    unfold MaxInt64. lia.
  - refine (proj1 (proj2 (scanner_reads_in_range 3 (B "abc?>") H0)) _).
    unfold MaxInt64. lia.
  - refine (proj2 (proj2 (scanner_reads_in_range 3 (B "abc?>") H0)) _).
    unfold MaxInt64, len. simpl. lia.
Defined.

(** X4: the loop of [Interpret] makes at most [len(src)]
    iterations, whatever the interpreter and the sink answer, and a
    larger bound changes nothing; so [Interpret] returns when the
    calls of [DoString] and [Write] it makes return ([DoString] is a
    function here: a chunk that never returns is outside the model).
    What is returned is the pass over the segments of the document:
    text is written one byte per [Write] and the first such write
    that fails ends the pass; each region is dispatched once and the
    first region that fails ends the pass; what the [Write] that
    flushes the output of a region returns is dropped, so that a
    flush that fails does not end the pass. *)
Theorem Interpret_is_the_pass (I : Lua) (W : Writer) (out0 : sink W) (src : bytes)
        (fuel : nat) :
  length src <= fuel ->
  option_map finish_of (loop fuel src 0 (init I W out0)) =
    Some (render I W (segments src) 1 (NewState I) out0 [] []) /\
  Interpret I W out0 src =
    Some (render I W (segments src) 1 (NewState I) out0 [] []).
Proof.
  intros Hf. split.
  - rewrite loop_scan by lia. cbn [option_map skipn]. f_equal.
    apply (scan_render I W (S (length src))). lia.
  - rewrite Interpret_scan. f_equal.
    apply (scan_render I W (S (length src))). lia.
Qed.

Lemma Interpret_is_the_pass_witness :
  option_map finish_of
    (loop 100 doc_two 0 (init MiniLua.interp Limited (1, []))) =
  Some (@mkResult Limited (Some (B "short write")) (0, B "1" ++ [newline])
                  [chunk_one] []).
Proof.
  refine (eq_trans
            (proj1 (Interpret_is_the_pass MiniLua.interp Limited (1, []) doc_two 100 _))
            eq_refl).
  apply Nat.leb_le. reflexivity.
Defined.

Lemma exit_pending_nonempty_witness :
  luaIn (in_code MiniLua.interp BytesBuffer 1 (B "?") [] (B "a") [] []) <> [].
Proof.
  exact (exit_pending_nonempty MiniLua.interp BytesBuffer [] (B "a<?lua?")
           (in_code MiniLua.interp BytesBuffer 1 (B "?") [] (B "a") [] [])
           eq_refl eq_refl).
Defined.

Lemma Interpret_text_any_sink_witness :
  Interpret MiniLua.interp Limited (2, []) (B "abc") =
  Some (@mkResult Limited (Some (B "short write")) (0, B "ab") [] []).
Proof.
  exact (Interpret_text_any_sink MiniLua.interp Limited (2, []) (B "abc") eq_refl).
Defined.

Lemma framed_framed (o o' : bytes) (cs cs' : list bytes) (so so' : bytes)
      (r : result BytesBuffer) :
  framed o cs so (framed o' cs' so' r) = framed (o ++ o') (cs ++ cs') (so ++ so') r.
Proof. unfold framed. cbn. now rewrite !app_assoc. Qed.

Lemma render_framed (I : Lua) (segs : list segment) :
  forall ln st o cs so,
  render I BytesBuffer segs ln st o cs so =
  framed o cs so (render I BytesBuffer segs ln st [] [] []).
Proof.
  induction segs as [|g segs IH]; intros ln st o cs so.
  - unfold framed. cbn. now rewrite !app_nil_r.
  - destruct g as [l|c closed]; cbn [render].
    + rewrite !write_bytes_buffer. rewrite (IH _ _ (o ++ l)), (IH _ _ ([] ++ l)).
      rewrite framed_framed. cbn [app]. now rewrite !app_nil_r.
    + destruct (DoString I st c) as [[prints st'] [e|]].
      * unfold framed. destruct closed; cbn; now rewrite !app_nil_r.
      * cbn [BytesBuffer Write].
        rewrite (IH _ _ (o ++ _) (cs ++ [c])), (IH _ _ ([] ++ _) ([] ++ [c])).
        rewrite framed_framed. cbn [app].
        destruct closed; now rewrite ?app_nil_r.
Qed.

(** X7: with a [bytes.Buffer], [Interpret] only appends: the buffer
    keeps what it held, and what is appended, the error and the
    chunks dispatched do not depend on what it held. *)
Theorem Interpret_only_appends (I : Lua) (out0 src : bytes) :
  exists r,
    Interpret I BytesBuffer [] src = Some r /\
    Interpret I BytesBuffer out0 src =
    Some (@mkResult BytesBuffer (res_err r) (out0 ++ res_out r) (res_calls r)
                    (res_stdout r)).
Proof.
  eexists. split.
  - apply Interpret_render.
  - rewrite Interpret_render, render_framed. reflexivity.
Qed.




(* ================================================================= *)
(** ** Properties of [parse] *)

Lemma parse_line_good (C : Config.Controller) (c : Config.ctl C)
      (args : list bytes) (rest : list (list bytes)) :
  Config.dispenses C c (args :: rest) -> length args <= 1 ->
  exists c2,
    Config.dispenses C c2 rest /\
    forall fuel rules,
      Config.parse_for C (S fuel) c rules =
      Config.parse_for C fuel c2 (rules ++ [Config.rule_of args]).
Proof.
  intros [c1 [Hn Ha]] Hlen.
  destruct args as [|a [|b more]]; [| |simpl in Hlen; lia].
  - destruct Ha as [Hna Hd]. exists c1. split; [exact Hd|].
    intros fuel rules. cbn [Config.parse_for]. rewrite Hn, Hna, Hna. reflexivity.
  - destruct Ha as [c2 [Hna [Hv [Hna2 Hd]]]]. exists c2. split; [exact Hd|].
    intros fuel rules. cbn [Config.parse_for]. rewrite Hn, Hna, Hna2, Hv. reflexivity.
Qed.

Lemma parse_line_bad (C : Config.Controller) (c : Config.ctl C)
      (args : list bytes) (rest : list (list bytes)) :
  Config.dispenses C c (args :: rest) -> 2 <= length args ->
  exists c',
    Config.Val C c' = nth 1 args [] /\
    forall fuel rules,
      Config.parse_for C (S fuel) c rules = Some (rules, Some (Config.ArgErr C c')).
Proof.
  intros [c1 [Hn Ha]] Hlen.
  destruct args as [|a [|b more]]; try (simpl in Hlen; lia).
  destruct Ha as [c2 [Hna [_ [c3 [Hna2 [Hv _]]]]]]. exists c3. split; [exact Hv|].
  intros fuel rules. cbn [Config.parse_for]. rewrite Hn, Hna, Hna2. reflexivity.
Qed.

Lemma parse_for_lines (C : Config.Controller) (lines : list (list bytes)) :
  forall (c : Config.ctl C) (fuel : nat) (rules : list Config.Rule),
  Forall (fun args => length args <= 1) lines ->
  Config.dispenses C c lines ->
  length lines < fuel ->
  Config.parse_for C fuel c rules = Some (rules ++ map Config.rule_of lines, None).
Proof.
  induction lines as [|args rest IH]; intros c fuel rules Hall Hd Hf.
  - destruct fuel as [|fuel]; [simpl in Hf; lia|].
    destruct Hd as [c1 Hn]. cbn [Config.parse_for]. rewrite Hn.
    cbn. now rewrite app_nil_r.
  - destruct fuel as [|fuel]; [simpl in Hf; lia|].
    inversion Hall as [|? ? Ha Hrest]; subst.
    destruct (parse_line_good C c args rest Hd Ha) as [c2 [Hd2 Hp]].
    rewrite Hp, (IH c2 fuel _ Hrest Hd2) by (simpl in Hf; lia).
    cbn [map]. now rewrite <- app_assoc.
Qed.

(** X9: for a configuration in which every [lua] line has at most
    one argument, [parse] returns no error and one rule per line, in
    the order of the lines: the argument as base path, and [/] for a
    line without argument.  One iteration per line and one more are
    enough. *)
Theorem parse_lines (C : Config.Controller) (lines : list (list bytes))
        (c : Config.ctl C) (fuel : nat) :
  Forall (fun args => length args <= 1) lines ->
  Config.dispenses C c lines ->
  length lines < fuel ->
  Config.parse C fuel c = Some (map Config.rule_of lines, None).
Proof.
  intros Hall Hd Hf. unfold Config.parse.
  now rewrite (parse_for_lines C lines c fuel [] Hall Hd Hf).
Qed.

Lemma parse_for_argument_error (C : Config.Controller) (good : list (list bytes))
      (bad : list bytes) (rest : list (list bytes)) :
  Forall (fun args => length args <= 1) good ->
  2 <= length bad ->
  forall (c : Config.ctl C) (fuel : nat) (rules : list Config.Rule),
  Config.dispenses C c (good ++ bad :: rest) ->
  length good < fuel ->
  exists c',
    Config.Val C c' = nth 1 bad [] /\
    Config.parse_for C fuel c rules =
    Some (rules ++ map Config.rule_of good, Some (Config.ArgErr C c')).
Proof.
  intros Hall Hbad.
  induction good as [|args good IH]; intros c fuel rules Hd Hf.
  - destruct fuel as [|fuel]; [simpl in Hf; lia|].
    destruct (parse_line_bad C c bad rest Hd Hbad) as [c' [Hv Hp]].
    exists c'. split; [exact Hv|]. rewrite Hp. cbn. now rewrite app_nil_r.
  - destruct fuel as [|fuel]; [simpl in Hf; lia|].
    inversion Hall as [|? ? Ha Hrest]; subst.
    destruct (parse_line_good C c args (good ++ bad :: rest) Hd Ha) as [c2 [Hd2 Hp]].
    assert (Hf2 : length good < fuel) by (simpl in Hf; lia).
    destruct (IH Hrest c2 fuel (rules ++ [Config.rule_of args]) Hd2 Hf2) as [c' [Hv Hq]].
    exists c'. split; [exact Hv|]. rewrite Hp, Hq. cbn [map]. now rewrite <- app_assoc.
Qed.

(** X10: at the first line with two arguments or more [parse] stops
    with the argument error of the controller, raised at the second
    argument of that line, and returns with it the rules of the
    lines before; the lines after are not read. *)
Theorem parse_argument_error (C : Config.Controller) (good : list (list bytes))
        (bad : list bytes) (rest : list (list bytes))
        (c : Config.ctl C) (fuel : nat) :
  Forall (fun args => length args <= 1) good ->
  2 <= length bad ->
  Config.dispenses C c (good ++ bad :: rest) ->
  length good < fuel ->
  exists c',
    Config.Val C c' = nth 1 bad [] /\
    Config.parse C fuel c =
    Some (map Config.rule_of good, Some (Config.ArgErr C c')).
Proof.
  intros Hall Hbad Hd Hf. unfold Config.parse.
  exact (parse_for_argument_error C good bad rest Hall Hbad c fuel [] Hd Hf).
Qed.

Lemma config_two_lines : Config.dispenses Config.Dispenser config_two [[]; [B "/app"]].
Proof.
  cbn. eexists. split; [reflexivity|]. split; [reflexivity|].
  eexists. split; [reflexivity|]. eexists. split; [reflexivity|].
  split; [reflexivity|]. split; [reflexivity|]. eexists. reflexivity.
Defined.

Lemma parse_lines_witness :
  Config.parse Config.Dispenser 3 config_two =
  Some ([Config.mkRule (B "/"); Config.mkRule (B "/app")], None).
Proof.
  refine (parse_lines Config.Dispenser [[]; [B "/app"]] config_two 3 _ config_two_lines _).
  - repeat constructor.
  - repeat constructor.
Defined.

Lemma config_bad_lines :
  Config.dispenses Config.Dispenser config_bad
    ([[B "/a"]] ++ [B "/b"; B "/c"] :: [[]]).
Proof.
  cbn. eexists. split; [reflexivity|].
  eexists. split; [reflexivity|]. split; [reflexivity|]. split; [reflexivity|].
  eexists. split; [reflexivity|].
  eexists. split; [reflexivity|]. split; [reflexivity|].
  eexists. split; [reflexivity|]. split; [reflexivity|]. split; [reflexivity|].
  eexists. split; [reflexivity|]. split; [reflexivity|]. eexists. reflexivity.
Defined.

Lemma parse_argument_error_witness :
  exists c',
    Config.Val Config.Dispenser c' = B "/c" /\
    Config.parse Config.Dispenser 2 config_bad =
    Some ([Config.mkRule (B "/a")], Some (Config.ArgErr Config.Dispenser c')).
Proof.
  refine (parse_argument_error Config.Dispenser [[B "/a"]] [B "/b"; B "/c"] [[]]
            config_bad 2 _ _ config_bad_lines _).
  - repeat constructor.
  - repeat constructor.
  - repeat constructor.
Defined.

(* ================================================================= *)
(** ** Properties of [ServeHTTP] and [Setup] *)

Lemma existsb_map_compose (X Y : Type) (f : Y -> bool) (g : X -> Y) (l : list X) :
  existsb f (map g l) = existsb (fun x => f (g x)) l.
Proof. induction l as [|x l IH]; [reflexivity|]. cbn. now rewrite IH. Qed.

Section ServerFacts.
Variable I : Lua.
Variable E : Server.Env.
Variable RW : Writer.

Lemma ServeHTTP_for_routes (rules : list Config.Rule) (h : Server.Handler E RW)
      (w : sink RW) (r : Server.Request E) :
  Server.ServeHTTP_for I E RW rules h w r =
  if existsb (fun rule => Server.Matches E (Server.URLPath E r) (Config.BasePath rule)) rules
  then Server.serve I E RW h w r
  else Some (Server.Next E RW h w r).
Proof.
  induction rules as [|rule rest IH]; [reflexivity|].
  cbn [Server.ServeHTTP_for existsb].
  destruct (Server.Matches E (Server.URLPath E r) (Config.BasePath rule)); cbn [negb orb].
  - reflexivity.
  - exact IH.
Qed.

(** X11: [ServeHTTP] serves the file when the base path of some rule
    matches the path of the request, and hands the request to the
    next handler otherwise; which rule matches, how many do and in
    which order the rules stand makes no difference. *)
Theorem ServeHTTP_routes (h : Server.Handler E RW) (w : sink RW) (r : Server.Request E) :
  Server.ServeHTTP I E RW h w r =
  if Server.routed E RW h r
  then Server.serve I E RW h w r
  else Some (Server.Next E RW h w r).
Proof. apply ServeHTTP_for_routes. Qed.

(** X12: when the file cannot be opened or read, nothing is written
    to the response and no script runs: a file that does not exist
    gives status 404 and no error, a file that may not be read 403
    and no error, any other failure of [Open] or of [ReadAll] 500
    with the error. *)
Theorem ServeHTTP_file_errors (h : Server.Handler E RW) (w : sink RW)
        (r : Server.Request E) :
  Server.routed E RW h r = true ->
  (forall err,
     Server.Open E (Server.FileSys E RW h) (Server.opened E RW h r) = inr err ->
     Server.ServeHTTP I E RW h w r =
     Some (w, if Server.IsNotExist E err then (404, None)
              else if Server.IsPermission E err then (403, None)
              else (500, Some err))) /\
  (forall file err,
     Server.Open E (Server.FileSys E RW h) (Server.opened E RW h r) = inl file ->
     Server.ReadAll E file = inr err ->
     Server.ServeHTTP I E RW h w r = Some (w, (500, Some err))).
Proof.
  intros Hr. unfold Server.ServeHTTP. rewrite ServeHTTP_for_routes.
  fold (Server.routed E RW h r). rewrite Hr. unfold Server.serve. fold (Server.opened E RW h r).
  split.
  - intros err Ho. rewrite Ho.
    destruct (Server.IsNotExist E err); [reflexivity|].
    now destruct (Server.IsPermission E err).
  - intros file err Ho Hread. now rewrite Ho, Hread.
Qed.

(** X13: when a region of the file fails, the response is left
    untouched, unlike the buffer of [Interpret]: the text and the
    output of the regions before the failure are not sent.  The
    status is 500 and the error is the one of [Interpret], with the
    line on which the failing region ends. *)
Theorem ServeHTTP_script_error (h : Server.Handler E RW) (w : sink RW)
        (r : Server.Request E) (file : Server.File E) (contents : bytes)
        (pre : list segment) (c : bytes) (closed : bool) (post : list segment)
        (st1 : LState I) (mid : bytes) (prints : list (list (LValue I)))
        (st2 : LState I) (e : error) :
  Server.routed E RW h r = true ->
  Server.Open E (Server.FileSys E RW h) (Server.opened E RW h r) = inl file ->
  Server.ReadAll E file = inl contents ->
  segments contents = pre ++ Script c closed :: post ->
  runs I pre (NewState I) = Some (st1, mid) ->
  DoString I st1 c = (prints, st2, Some e) ->
  Server.ServeHTTP I E RW h w r =
  Some (w, (500, Some (Errorf (line_of contents (length (flat pre ++ startSeq ++ c))) e))).
Proof.
  intros Hr Ho Hread Hseg Hruns Hd.
  unfold Server.ServeHTTP. rewrite ServeHTTP_for_routes.
  fold (Server.routed E RW h r). rewrite Hr. unfold Server.serve. fold (Server.opened E RW h r).
  rewrite Ho, Hread.
  destruct (Interpret_error_at I [] contents pre c closed post st1 mid prints st2 e
              Hseg Hruns Hd) as [so H].
  rewrite H. reflexivity.
Qed.

(** X14: when every region of the file runs without error, the
    response receives, in one write, the text of the file with each
    region replaced by what it printed, and the status is 200 with
    no error, also when that write fails. *)
Theorem ServeHTTP_ok (h : Server.Handler E RW) (w : sink RW)
        (r : Server.Request E) (file : Server.File E) (contents : bytes)
        (st1 : LState I) (text : bytes) :
  Server.routed E RW h r = true ->
  Server.Open E (Server.FileSys E RW h) (Server.opened E RW h r) = inl file ->
  Server.ReadAll E file = inl contents ->
  runs I (segments contents) (NewState I) = Some (st1, text) ->
  Server.ServeHTTP I E RW h w r = Some (fst (Write RW w text), (200, None)).
Proof.
  intros Hr Ho Hread Hruns.
  unfold Server.ServeHTTP. rewrite ServeHTTP_for_routes.
  fold (Server.routed E RW h r). rewrite Hr. unfold Server.serve. fold (Server.opened E RW h r).
  rewrite Ho, Hread, Interpret_render.
  destruct (render_runs I _ _ _ _ Hruns 1 [] [] []) as [so H].
  rewrite H. cbn [res_err res_out app].
  now destruct (Write RW w text).
Qed.

(** X15: [Setup] on a configuration whose lines have at most one
    argument gives a middleware; the handler it builds around a next
    handler has the site root of the controller and serves a request
    exactly when its path matches the base path of some line ([/]
    for a line without argument). *)
Theorem Setup_routes (C : Config.Controller) (lines : list (list bytes))
        (c : Config.ctl C) (fuel : nat) :
  Forall (fun args => length args <= 1) lines ->
  Config.dispenses C c lines ->
  length lines < fuel ->
  exists mk,
    Server.Setup E RW C fuel c = Some (inl mk) /\
    forall next w r,
      Server.Root E RW (mk next) = Config.Root C c /\
      Server.ServeHTTP I E RW (mk next) w r =
      if existsb (fun args =>
                    Server.Matches E (Server.URLPath E r)
                      (Config.BasePath (Config.rule_of args))) lines
      then Server.serve I E RW (mk next) w r
      else Some (next w r).
Proof.
  intros Hall Hd Hf. unfold Server.Setup, Config.parse.
  rewrite (parse_for_lines C lines c fuel [] Hall Hd Hf).
  eexists. split; [reflexivity|].
  intros next w r. split; [reflexivity|].
  unfold Server.ServeHTTP. rewrite ServeHTTP_for_routes.
  cbn [Server.Rules Server.Next app].
  now rewrite existsb_map_compose.
Qed.

(** X16: when a line has two arguments or more, [Setup] returns the
    argument error of the controller and no middleware. *)
Lemma Setup_argument_error (C : Config.Controller) (good : list (list bytes))
      (bad : list bytes) (rest : list (list bytes)) (c : Config.ctl C) (fuel : nat) :
  Forall (fun args => length args <= 1) good ->
  2 <= length bad ->
  Config.dispenses C c (good ++ bad :: rest) ->
  length good < fuel ->
  exists c', Server.Setup E RW C fuel c = Some (inr (Config.ArgErr C c')).
Proof.
  intros Hall Hbad Hd Hf. unfold Server.Setup, Config.parse.
  destruct (parse_for_argument_error C good bad rest Hall Hbad c fuel [] Hd Hf)
    as [c' [_ H]].
  exists c'. now rewrite H.
Qed.
End ServerFacts.

Lemma ServeHTTP_file_errors_witness :
  Server.ServeHTTP MiniLua.interp Server.ListEnv BytesBuffer site_handler []
    (B "/app/missing.html") = Some ([], (404, None)) /\
  Server.ServeHTTP MiniLua.interp Server.ListEnv BytesBuffer site_handler []
    (B "/app/secret.html") = Some ([], (403, None)) /\
  Server.ServeHTTP MiniLua.interp Server.ListEnv BytesBuffer site_handler []
    (B "/app/broken.html") = Some ([], (500, Some (B "unexpected EOF"))).
Proof.
  split; [|split].
  - exact (proj1 (ServeHTTP_file_errors MiniLua.interp Server.ListEnv BytesBuffer
                    site_handler [] (B "/app/missing.html") eq_refl)
             (B "file does not exist") eq_refl).
  - exact (proj1 (ServeHTTP_file_errors MiniLua.interp Server.ListEnv BytesBuffer
                    site_handler [] (B "/app/secret.html") eq_refl)
             (B "permission denied") eq_refl).
  - exact (proj2 (ServeHTTP_file_errors MiniLua.interp Server.ListEnv BytesBuffer
                    site_handler [] (B "/app/broken.html") eq_refl)
             (inr (B "unexpected EOF")) (B "unexpected EOF") eq_refl eq_refl).
Defined.

Lemma ServeHTTP_script_error_witness :
  Server.ServeHTTP MiniLua.interp Server.ListEnv BytesBuffer site_handler (B "sent")
    (B "/app/boom.html") =
  Some (B "sent", (500, Some (B "Lua Error (Line 1): <string>: boom"))).
Proof.
  exact (ServeHTTP_script_error MiniLua.interp Server.ListEnv BytesBuffer
           site_handler (B "sent") (B "/app/boom.html")
           (inl (B "a" ++ doc_boom)) (B "a" ++ doc_boom)
           [Literal (B "a")] chunk_boom true [Literal []]
           [] (B "a") [] [] (B "<string>: boom")
           eq_refl eq_refl eq_refl eq_refl eq_refl eq_refl).
Defined.

Lemma ServeHTTP_ok_witness :
  Server.ServeHTTP MiniLua.interp Server.ListEnv BytesBuffer site_handler []
    (B "/app/hello.html") =
  Some (B "Hello World" ++ [newline] ++ B "!", (200, None)).
Proof.
  exact (ServeHTTP_ok MiniLua.interp Server.ListEnv BytesBuffer
           site_handler [] (B "/app/hello.html")
           (inl doc_hello) doc_hello [] (B "Hello World" ++ [newline] ++ B "!")
           eq_refl eq_refl eq_refl eq_refl).
Defined.

Lemma Setup_routes_witness :
  exists mk,
    Server.Setup Server.ListEnv BytesBuffer Config.Dispenser 3 config_two = Some (inl mk) /\
    forall next w r,
      Server.Root Server.ListEnv BytesBuffer (mk next) = B "/srv" /\
      Server.ServeHTTP MiniLua.interp Server.ListEnv BytesBuffer (mk next) w r =
      if starts_with (B "/") r || (starts_with (B "/app") r || false)
      then Server.serve MiniLua.interp Server.ListEnv BytesBuffer (mk next) w r
      else Some (next w r).
Proof.
  assert (Hall : Forall (fun args : list bytes => length args <= 1) [[]; [B "/app"]])
    by (repeat constructor).
  exact (Setup_routes MiniLua.interp Server.ListEnv BytesBuffer Config.Dispenser
           [[]; [B "/app"]] config_two 3 Hall config_two_lines (le_n 3)).
Defined.

Lemma Setup_argument_error_witness :
  exists c',
    Server.Setup Server.ListEnv BytesBuffer Config.Dispenser 2 config_bad =
    Some (inr (Config.ArgErr Config.Dispenser c')).
Proof.
  assert (Hall : Forall (fun args : list bytes => length args <= 1) [[B "/a"]])
    by (repeat constructor).
  assert (Hbad : 2 <= length [B "/b"; B "/c"]) by (repeat constructor).
  exact (Setup_argument_error Server.ListEnv BytesBuffer Config.Dispenser
           [[B "/a"]] [B "/b"; B "/c"] [[]] config_bad 2
           Hall Hbad config_bad_lines (le_n 2)).
Defined.
